(** * GameDB (game-space): the compound field / spatial index of src/game-space.js

    A shallow embedding of the [GameDB] class and proofs about its query
    engine.  Conventions of the embedding:

    - a plain JS object used as a dictionary is a [gmap] of its own
      properties, keyed by the property key (a string); a property read that
      finds no own property goes on to [Object.prototype], whose property
      names are listed in [Object_prototype];
    - [this.byId] is a plain object until [nuke] replaces it by an [Array]:
      the flag [byId_is_array] tells which, and the reads, writes and deletes
      of the property [length] of an array are modelled;
    - an id is a string, as the uuids of the repository's entities are, and a
      JS [Set] of ids is a [gset]; the iteration order of a [Set] is not
      modelled, so statements about results are statements about membership;
    - an id and the name of a configured field are strings other than
      [__proto__]: assigning to that property replaces the prototype of the
      object, which is not modelled, and the types [entity] and
      [configuration] leave the name out;
    - an indexed attribute value is of one of the kinds of [value];
    - a method is a computation over the engine state that completes normally
      or throws, and the state it leaves behind is there in both cases;
    - the spatial index (rbush) and the built-in objects of the JS runtime are
      external: the engine is written against the interfaces [SpatialIndex]
      and [Runtime]. *)

From stdpp Require Import gmap strings list fin_maps pretty.

Open Scope string_scope.

(** ** JS values used as indexed attributes *)

(** The integers a JS number holds exactly, [Number.MIN_SAFE_INTEGER] to
    [Number.MAX_SAFE_INTEGER]; JS prints them digit by digit. *)
Definition safe_integer (n : Z) : bool :=
  (Z.abs n <=? 9007199254740991)%Z.

(** The attribute values an entity carries: [undefined] (the attribute is
    missing), [null], a boolean, a safe integer, or a string.  Other numbers
    and objects are not in the embedding. *)
Inductive value :=
| VUndef
| VNull
| VBool (b : bool)
| VNum (n : Z) (safe : Is_true (safe_integer n))
| VStr (s : string).

(** The property key a value is coerced to when it indexes a plain object
    ([obj[value]]): a number becomes its decimal numeral. *)
Definition to_key (v : value) : string :=
  match v with
  | VUndef => "undefined"
  | VNull => "null"
  | VBool true => "true"
  | VBool false => "false"
  | VNum n _ => pretty n
  | VStr s => s
  end.

(** ** Property names *)

(** The names of the properties of [Object.prototype], which every plain
    object inherits.  Read from a plain object each of them is truthy: ten
    are methods, [constructor] is [Object] and [__proto__] is
    [Object.prototype] itself. *)
Definition Object_prototype : list string :=
  [ "constructor"; "__defineGetter__"; "__defineSetter__"; "hasOwnProperty";
    "__lookupGetter__"; "__lookupSetter__"; "isPrototypeOf";
    "propertyIsEnumerable"; "toString"; "valueOf"; "__proto__";
    "toLocaleString" ].

(** A name [obj[name] = x] gives an own property to. *)
Definition assignable (name : string) : bool :=
  negb (String.eqb name "__proto__").

(** ** The external spatial index *)

(** The part of the rbush interface the engine calls.  An entry is
    [{ id, ...handle }]: an id with a bounding box.  [rbush_remove] finds the
    entry through the equality function [(a, b) => a.id === b.id]. *)
Class SpatialIndex := {
  bbox : Type;
  rbush : Type;
  rbush_new : rbush;
  rbush_insert : string * bbox → rbush → rbush;
  rbush_remove : string → rbush → rbush;
  rbush_search : bbox → rbush → list (string * bbox);
  rbush_clear : rbush → rbush;
}.

(** ** The built-in objects of the runtime *)

(** What reading a property gives, as far as the engine tells the results
    apart: a falsy value ([undefined], [null], [0], the empty string), a
    truthy one, or an exception. *)
Inductive property :=
| Falsy
| Truthy
| Raises.

(** Which properties the built-in objects have differs between the versions
    of the language.  [builtin_property name key] is the read
    [Object.prototype[name][key]], for a [name] of [Object_prototype];
    [Array_prototype name] tells whether [Array.prototype] has a property
    [name]. *)
Class Runtime := {
  builtin_property : string → string → property;
  Array_prototype : string → bool;
}.

(** ** Errors *)

(** The exceptions the engine can raise.  The code has no [throw] of its own:
    what it raises are the exceptions of the runtime. *)
Inductive error :=
| TypeError
    (* a property of [undefined] is read, a value that is not a function is
       called, or [length] is deleted from an array *)
| RangeError.
    (* the [length] of an array is set to a value that is not a length *)

#[global] Instance error_eq_dec : EqDecision error.
Proof. solve_decision. Defined.

(** How a call ends. *)
Inductive completion (A : Type) :=
| Normal (a : A)
| Throw (e : error).
Arguments Normal {A} a.
Arguments Throw {A} e.

Definition throws {A} (c : completion A) : Prop :=
  match c with Normal _ => False | Throw _ => True end.

(** A query object [{ field: value, ... }] with its keys in the order
    [Object.keys] lists them. *)
Abbreviation query_t := (list (string * value)).

Section GameDB.
Context `{SI : SpatialIndex} `{RT : Runtime}.

(** ** Entities *)

(** What the engine reads of an entity: [entity.id], a string other than
    [__proto__]; [entity[field]]; and [entity.getSpatialHandle()].
    [attributes] has the value of [entity[field]] for the fields the engine
    reads; a field that is not in it reads as [undefined]. *)
Record entity := {
  id : string;
  id_assignable : Is_true (assignable id);
  attributes : gmap string value;
  getSpatialHandle : bbox;
}.

(** [entity[field]] *)
Definition attr (e : entity) (field : string) : value :=
  default VUndef (attributes e !! field).

(** [Object.keys(query)] *)
Definition keys (q : query_t) : list string := q.*1.

(** [query[field]] *)
Fixpoint query_get (q : query_t) (field : string) : value :=
  match q with
  | [] => VUndef
  | (f, v) :: q' => if decide (f = field) then v else query_get q' field
  end.

(** The argument of the constructor: the names of the fields to index, none
    of which is [__proto__]. *)
Record configuration := Fields {
  names : list string;
  names_assignable : Is_true (forallb assignable names);
}.

(** ** Engine state *)

(** What [this.pool.fields] and [this.pool.resultReference] can hold: a
    reference to one of the [Set] objects of the engine (the four sets of the
    scratch pool are objects of their own, the others are slices of the field
    index), or a truthy value that is not a [Set], which an inherited
    property gave. *)
Inductive setref :=
| PoolEmptySet
| PoolSpatial
| PoolIds
| IndexSlice (field key : string)
| NotASet.

#[global] Instance setref_eq_dec : EqDecision setref.
Proof. solve_decision. Defined.

Record Pool := {
  emptySet : gset string;
  fields : list setref;
  spatial : gset string;
  ids : gset string;
  resultReference : option setref;
}.

(** [byId] has the own properties of [this.byId] that hold an entity. *)
Record GameDB := {
  fieldIndexes : gmap string (gmap string (gset string));
  fieldsToIndex : list string;
  byId : gmap string entity;
  byId_is_array : bool;
  spatialIndex : rbush;
  pool : Pool;
}.

(** [this.fieldIndexes[field][key]], the empty set when there is none. *)
Definition index_slice (fi : gmap string (gmap string (gset string)))
    (field key : string) : gset string :=
  default ∅ (fi !! field ≫= (.!! key)).

Definition slice (g : GameDB) (field key : string) : gset string :=
  index_slice (fieldIndexes g) field key.

(** The [Set] object a reference points to, if it is one. *)
Definition deref (g : GameDB) (r : setref) : option (gset string) :=
  match r with
  | PoolEmptySet => Some (emptySet (pool g))
  | PoolSpatial => Some (spatial (pool g))
  | PoolIds => Some (ids (pool g))
  | IndexSlice f k => Some (slice g f k)
  | NotASet => None
  end.

(** The ids of the set a reference points to: none when it is no set. *)
Definition set_of (g : GameDB) (r : setref) : gset string :=
  default ∅ (deref g r).

Definition set_fieldIndexes (fi : gmap string (gmap string (gset string))) (g : GameDB) : GameDB :=
  {| fieldIndexes := fi; fieldsToIndex := fieldsToIndex g; byId := byId g;
     byId_is_array := byId_is_array g;
     spatialIndex := spatialIndex g; pool := pool g |}.

Definition set_byId (b : gmap string entity) (g : GameDB) : GameDB :=
  {| fieldIndexes := fieldIndexes g; fieldsToIndex := fieldsToIndex g; byId := b;
     byId_is_array := byId_is_array g;
     spatialIndex := spatialIndex g; pool := pool g |}.

Definition set_byId_is_array (a : bool) (g : GameDB) : GameDB :=
  {| fieldIndexes := fieldIndexes g; fieldsToIndex := fieldsToIndex g; byId := byId g;
     byId_is_array := a;
     spatialIndex := spatialIndex g; pool := pool g |}.

Definition set_spatialIndex (t : rbush) (g : GameDB) : GameDB :=
  {| fieldIndexes := fieldIndexes g; fieldsToIndex := fieldsToIndex g; byId := byId g;
     byId_is_array := byId_is_array g;
     spatialIndex := t; pool := pool g |}.

Definition set_pool (p : Pool) (g : GameDB) : GameDB :=
  {| fieldIndexes := fieldIndexes g; fieldsToIndex := fieldsToIndex g; byId := byId g;
     byId_is_array := byId_is_array g;
     spatialIndex := spatialIndex g; pool := p |}.

(** ** Methods as computations *)

Definition M (A : Type) : Type := GameDB → completion A * GameDB.

Definition ret {A} (a : A) : M A := λ g, (Normal a, g).
Definition bind {A B} (m : M A) (k : A → M B) : M B :=
  λ g, match m g with
       | (Normal a, g') => k a g'
       | (Throw e, g') => (Throw e, g')
       end.
Definition throw {A} (e : error) : M A := λ g, (Throw e, g).
Definition this : M GameDB := λ g, (Normal g, g).
Definition update (f : GameDB → GameDB) : M unit := λ g, (Normal tt, f g).

#[global] Instance M_ret : MRet M := @ret.
#[global] Instance M_bind : MBind M := λ A B k m, bind m k.

(** [list.forEach(body)] and [for (x of list) body]: an exception thrown by
    the body ends the loop. *)
Fixpoint forEach {A} (l : list A) (body : A → M unit) : M unit :=
  match l with
  | [] => ret tt
  | x :: l' => body x;; forEach l' body
  end.

(** What a slot of the caller's result array holds, which is what
    [this.byId[id]] gave: an entity, [undefined], or an inherited property of
    [this.byId], which is no entity. *)
Inductive slot :=
| Entity (e : entity)
| Undefined
| NotAnEntity.

#[local] Abbreviation buffer := (list slot).

(** [this.byId[id]]: the own property, or else what the object inherits.  An
    array has its [length] and inherits from [Array.prototype] as well. *)
Definition byId_read (g : GameDB) (i : string) : slot :=
  match byId g !! i with
  | Some e => Entity e
  | None =>
      if bool_decide (i ∈ Object_prototype)
         || byId_is_array g && (bool_decide (i = "length") || Array_prototype i)
      then NotAnEntity
      else Undefined
  end.

Definition set_fields (l : list setref) (p : Pool) : Pool :=
  {| emptySet := emptySet p; fields := l; spatial := spatial p; ids := ids p;
     resultReference := resultReference p |}.

Definition set_spatial (s : gset string) (p : Pool) : Pool :=
  {| emptySet := emptySet p; fields := fields p; spatial := s; ids := ids p;
     resultReference := resultReference p |}.

Definition set_ids (s : gset string) (p : Pool) : Pool :=
  {| emptySet := emptySet p; fields := fields p; spatial := spatial p; ids := s;
     resultReference := resultReference p |}.

Definition set_resultReference (r : option setref) (p : Pool) : Pool :=
  {| emptySet := emptySet p; fields := fields p; spatial := spatial p; ids := ids p;
     resultReference := r |}.

Definition update_pool (f : Pool → Pool) : M unit :=
  update (λ g, set_pool (f (pool g)) g).

(** *** Private methods *)

(** [buffer.length = 0] *)
Definition _clearBuffer (results : buffer) : M buffer := ret [].

Definition _clearPool : M unit :=
  update_pool (set_spatial ∅);;
  update_pool (set_fields []);;
  update_pool (set_ids ∅);;
  update_pool (set_resultReference None).

(** [resultReference || ids]: a [Set] object is truthy and so is the value of
    an inherited property, [null] is not.  [useResults.values()] throws when
    the value is not a [Set]; every id of the chosen set pushes
    [this.byId[id]]. *)
Definition _resolve (results : buffer) : M buffer :=
  g ← this;
  let useResults := default PoolIds (resultReference (pool g)) in
  match deref g useResults with
  | None => throw TypeError
  | Some set => ret (results ++ (byId_read g <$> elements set))%list
  end.

Definition _spatialSearch (bounds : bbox) : M unit :=
  g ← this;
  forEach (rbush_search bounds (spatialIndex g)) (λ entry,
    update_pool (λ p, set_spatial ({[entry.1]} ∪ spatial p) p)).

(** [this.fieldIndexes[field][value] || this.pool.emptySet], line 270.  The
    sub-index of a configured field is an own property of
    [this.fieldIndexes]; any other [field] is looked up in
    [Object.prototype], and reading a property of [undefined] throws.  In a
    sub-index, a key without a set of its own is looked up in
    [Object.prototype] too. *)
Definition field_result (g : GameDB) (field : string) (value_ : value)
    : completion setref :=
  let key := to_key value_ in
  match fieldIndexes g !! field with
  | Some fieldIndex =>
      match fieldIndex !! key with
      | Some _ => Normal (IndexSlice field key)
      | None =>
          if decide (key ∈ Object_prototype)
          then Normal NotASet
          else Normal PoolEmptySet
      end
  | None =>
      if decide (field ∈ Object_prototype)
      then match builtin_property field key with
           | Truthy => Normal NotASet
           | Falsy => Normal PoolEmptySet
           | Raises => Throw TypeError
           end
      else Throw TypeError
  end.

(** The body of the loop of [_fieldSearch]. *)
Definition fieldSearch_body (query : query_t) (field : string) : M unit :=
  let value := query_get query field in
  g ← this;
  match field_result g field value with
  | Normal result => update_pool (λ p, set_fields (fields p ++ [result])%list p)
  | Throw err => throw err
  end.

Definition _fieldSearch (query : query_t) : M unit :=
  let fields_ := keys query in
  forEach fields_ (fieldSearch_body query).

(** [this.byId[entity.id] = entity].  On an array the assignment to [length]
    is the one that sets the length, and an entity is no length. *)
Definition _insertIntoIdIndex (e : entity) : M unit :=
  g ← this;
  if byId_is_array g && bool_decide (id e = "length")
  then throw RangeError
  else update (λ g, set_byId (<[id e := e]> (byId g)) g).

(** The callback of [_insertIntoFieldIndex], for one indexed field.  The
    sub-index of a configured field is an own property of
    [this.fieldIndexes], which the constructor and [nuke] give it.  When the
    key has no set of its own but [Object.prototype] has a property of that
    name, [!fieldIndex[key]] is false and [.add] is called on a value that
    has no such method. *)
Definition insertIntoFieldIndex_body (e : entity) (field : string) : M unit :=
  g ← this;
  match fieldIndexes g !! field with
  | None => throw TypeError
  | Some fieldIndex =>
      let key := to_key (attr e field) in
      match fieldIndex !! key with
      | None =>
          if decide (key ∈ Object_prototype)
          then throw TypeError
          else update (λ g, set_fieldIndexes
                 (<[field := <[key := {[id e]}]> fieldIndex]> (fieldIndexes g)) g)
      | Some s =>
          update (λ g, set_fieldIndexes
            (<[field := <[key := {[id e]} ∪ s]> fieldIndex]> (fieldIndexes g)) g)
      end
  end.

Definition _insertIntoFieldIndex (e : entity) : M unit :=
  g ← this;
  forEach (fieldsToIndex g) (insertIntoFieldIndex_body e).

Definition _insertIntoSpatialIndex (e : entity) : M unit :=
  update (λ g, set_spatialIndex
    (rbush_insert (id e, getSpatialHandle e) (spatialIndex g)) g).

Definition _removeFromSpatialIndex (e : entity) : M unit :=
  update (λ g, set_spatialIndex (rbush_remove (id e) (spatialIndex g)) g).

Definition _clearSpatialIndex : M unit :=
  update (λ g, set_spatialIndex (rbush_clear (spatialIndex g)) g).

(** *** The intersection loops of [search] *)

(** [set.size]: [undefined] when the value is not a [Set]. *)
Definition ref_size (g : GameDB) (r : setref) : option nat :=
  size <$> deref g r.

(** [a < b] on two sizes: a comparison with [undefined] is false. *)
Definition size_lt (a b : option nat) : bool :=
  match a, b with
  | Some x, Some y => bool_decide (x < y)
  | _, _ => false
  end.

(** Lines 82-88 and 138-144: scan [this.pool.fields] from index [i] on for a
    set strictly smaller than the smallest so far. *)
Fixpoint smallest_loop (g : GameDB) (l : list setref) (i : Z)
    (smallestSet : setref) (smallestIndex : Z) : setref * Z :=
  match l with
  | [] => (smallestSet, smallestIndex)
  | field :: l' =>
      if size_lt (ref_size g field) (ref_size g smallestSet)
      then smallest_loop g l' (i + 1) field i
      else smallest_loop g l' (i + 1) smallestSet smallestIndex
  end.

(** Lines 94-103 and 150-159: is [id_] in every set of [l] (the sets from
    index [i] on) but for the one at [smallestIndex], which is skipped?  The
    first set without it ends the loop, and [compare.has(id)] throws when
    [compare] is not a [Set]. *)
Fixpoint intersects_loop (g : GameDB) (id_ : string) (smallestIndex : Z)
    (i : Z) (l : list setref) : completion bool :=
  match l with
  | [] => Normal true
  | compare :: l' =>
      if decide (i = smallestIndex)
      then intersects_loop g id_ smallestIndex (i + 1) l'
      else match deref g compare with
           | None => Throw TypeError
           | Some set =>
               if decide (id_ ∈ set)
               then intersects_loop g id_ smallestIndex (i + 1) l'
               else Normal false
           end
  end.

(** Lines 92-107 and 148-163: every id of the smallest set that is in all the
    others goes into [this.pool.ids].  [first] is the index the inner loop
    starts from and [sets] the sets it visits.  [smallestSet.values()] throws
    when the value is not a [Set]. *)
Definition intersect_from (smallestSet : setref) (smallestIndex : Z)
    (first : Z) (sets : GameDB → list setref) : M unit :=
  g ← this;
  match deref g smallestSet with
  | None => throw TypeError
  | Some set =>
      forEach (elements set) (λ id_,
        g ← this;
        match intersects_loop g id_ smallestIndex first (sets g) with
        | Throw err => throw err
        | Normal true => update_pool (λ p, set_ids ({[id_]} ∪ ids p) p)
        | Normal false => ret tt
        end)
  end.

(** *** Public methods *)

Definition constructor (fieldsToIndex_ : configuration) : GameDB :=
  {| fieldIndexes := foldl (λ fi field, <[field := ∅]> fi) ∅ (names fieldsToIndex_);
     fieldsToIndex := names fieldsToIndex_;
     byId := ∅;
     byId_is_array := false;
     spatialIndex := rbush_new;
     pool := {| emptySet := ∅; fields := []; spatial := ∅; ids := ∅;
                resultReference := None |} |}.

(** Lines 71-166 of [search]: the intersection of the partial results, once
    the two index searches have filled the pool. *)
Definition plan (bounds : option bbox) (query : option query_t) : M unit :=
  match bounds, query with
  | Some _, Some _ =>
      g ← this;
      if decide (0 < length (fields (pool g)) ∧ 0 < size (spatial (pool g)))
      then
        let '(smallestSet, smallestIndex) :=
          smallest_loop g (fields (pool g)) 0 PoolSpatial (-1) in
        intersect_from smallestSet smallestIndex (-1)
          (λ g, PoolSpatial :: fields (pool g))
      else ret tt
  | Some _, None =>
      update_pool (set_resultReference (Some PoolSpatial))
  | None, Some _ =>
      g ← this;
      match fields (pool g) with
      | [] => ret tt
      | [field0] => update_pool (set_resultReference (Some field0))
      | field0 :: rest =>
          let '(smallestSet, smallestIndex) :=
            smallest_loop g rest 1 field0 0 in
          intersect_from smallestSet smallestIndex 0 (λ g, fields (pool g))
      end
  | None, None => ret tt
  end.

Definition search (bounds : option bbox) (query : option query_t)
    (results : buffer) : M buffer :=
  results ← _clearBuffer results;
  _clearPool;;
  (if bounds is Some b then _spatialSearch b else ret tt);;
  (if query is Some q then _fieldSearch q else ret tt);;
  plan bounds query;;
  _resolve results.

Definition insert (e : entity) : M unit :=
  _insertIntoIdIndex e;;
  _insertIntoFieldIndex e;;
  _insertIntoSpatialIndex e.

(** The callback of [remove], for one indexed field: [.delete] is called on
    [undefined] when the key has no set, and on a value without such a method
    when the key is the name of an inherited property. *)
Definition remove_body (e : entity) (field : string) : M unit :=
  g ← this;
  match fieldIndexes g !! field with
  | None => throw TypeError
  | Some fieldIndex =>
      let key := to_key (attr e field) in
      match fieldIndex !! key with
      | None => throw TypeError
      | Some s =>
          update (λ g, set_fieldIndexes
            (<[field := <[key := s ∖ {[id e]}]> fieldIndex]> (fieldIndexes g)) g)
      end
  end.

(** [delete this.byId[entity.id]] comes first.  The code of a class is strict
    code, in which the [delete] of the [length] of an array throws. *)
Definition remove (e : entity) : M unit :=
  g ← this;
  (if byId_is_array g && bool_decide (id e = "length")
   then throw TypeError
   else update (λ g, set_byId (delete (id e) (byId g)) g));;
  g ← this;
  forEach (fieldsToIndex g) (remove_body e);;
  _removeFromSpatialIndex e.

Definition move (e : entity) : M unit :=
  _removeFromSpatialIndex e;;
  _insertIntoSpatialIndex e.

(** [Object.values(this.byId)]: the values of the own enumerable properties,
    which the [length] of an array is not one of. *)
Definition all : M (list entity) :=
  g ← this;
  ret ((map_to_list (byId g)).*2).

(** [this.byId = []]: from here on the identity store is an array. *)
Definition nuke : M unit :=
  _clearSpatialIndex;;
  update (λ g, set_byId_is_array true (set_byId ∅ g));;
  update (set_fieldIndexes ∅);;
  g ← this;
  forEach (fieldsToIndex g) (λ field,
    update (λ g, set_fieldIndexes (<[field := ∅]> (fieldIndexes g)) g)).

(** ** Histories of calls *)

(** A call of a public method, with its arguments. *)
Inductive call :=
| Insert (e : entity)
| Remove (e : entity)
| Move (e : entity)
| Search (bounds : option bbox) (query : option query_t) (results : buffer)
| All
| Nuke.

(** How the call ends (the value it returns is dropped) and the state it
    leaves. *)
Definition perform (c : call) : M unit :=
  match c with
  | Insert e => insert e
  | Remove e => remove e
  | Move e => move e
  | Search b q r => search b q r;; ret tt
  | All => all;; ret tt
  | Nuke => nuke
  end.

Definition after (c : call) (g : GameDB) : GameDB := (perform c g).2.

Definition run (cs : list call) (g : GameDB) : GameDB :=
  foldl (λ g c, after c g) g cs.

(** The states an engine can be in: those some sequence of calls, failed ones
    included, leads to from a newly constructed engine. *)
Definition reachable (g : GameDB) : Prop :=
  ∃ fieldsToIndex_ cs, g = run cs (constructor fieldsToIndex_).

(** The identity store refuses the id: it is an array, and the id is
    [length]. *)
Definition refused (g : GameDB) (e : entity) : Prop :=
  byId_is_array g = true ∧ id e = "length".

#[global] Instance refused_dec (g : GameDB) (e : entity) : Decision (refused g e).
Proof. unfold refused. apply _. Defined.

(** The caller's side of the contract of the methods: an entity is inserted
    under an id that is not in use and that the identity store takes, with
    indexed attribute values whose keys are no names of inherited properties;
    and the entity removed or moved is a stored one, with the attribute
    values it was inserted with. *)
Definition respects (g : GameDB) (c : call) : Prop :=
  match c with
  | Insert e =>
      byId g !! id e = None ∧ ¬ refused g e ∧
      ∀ f, f ∈ fieldsToIndex g → to_key (attr e f) ∉ Object_prototype
  | Remove e | Move e =>
      ∃ e', byId g !! id e = Some e' ∧ attributes e' = attributes e
  | _ => True
  end.

(** The states reached when every call respected the contract. *)
Inductive well_used : GameDB → Prop :=
| well_used_new fieldsToIndex_ : well_used (constructor fieldsToIndex_)
| well_used_call g c : well_used g → respects g c → well_used (after c g).

(** What a [search] appended to the caller's buffer: nothing when it threw,
    as the buffer is emptied before anything can throw and filled last. *)
Definition appended (r : completion buffer * GameDB) : buffer :=
  match r.1 with
  | Normal results => results
  | Throw _ => []
  end.

(** The ids of the entries the spatial index yields for the bounds. *)
Definition spatial_hits (b : bbox) (g : GameDB) : gset string :=
  list_to_set (rbush_search b (spatialIndex g)).*1.

(** The criteria of a [search], read as a predicate on ids: within the
    bounds, and filed in the field index under every criterion of the query.
    A call with neither, or with a query without criteria, selects no id. *)
Definition in_bounds (g : GameDB) (bounds : option bbox) (i : string) : Prop :=
  match bounds with
  | Some b => i ∈ spatial_hits b g
  | None => True
  end.

Definition in_query (g : GameDB) (query : option query_t) (i : string) : Prop :=
  match query with
  | Some q => q ≠ [] ∧ ∀ f, f ∈ keys q → i ∈ slice g f (to_key (query_get q f))
  | None => True
  end.

Definition selects (g : GameDB) (bounds : option bbox) (query : option query_t)
    (i : string) : Prop :=
  (is_Some bounds ∨ is_Some query) ∧ in_bounds g bounds i ∧ in_query g query i.

(** The criterion [field: value] of a query gives [_fieldSearch] a set. *)
Definition a_set (g : GameDB) (field : string) (value_ : value) : Prop :=
  ∃ r, field_result g field value_ = Normal r ∧ r ≠ NotASet.

(** Every criterion of the query gives a set. *)
Definition sets_only (g : GameDB) (query : option query_t) : Prop :=
  match query with
  | Some q => Forall (λ f, a_set g f (query_get q f)) (keys q)
  | None => True
  end.

(** The state during a search of [g]: the pool holds the spatial result [S]
    and the field results [F], and no result yet. *)
Definition staged (g : GameDB) (S : gset string) (F : list setref) : GameDB :=
  set_pool {| emptySet := emptySet (pool g); fields := F; spatial := S;
              ids := ∅; resultReference := None |} g.

(** The reference [_fieldSearch] keeps for one criterion, when it keeps
    one. *)
Definition field_ref (g : GameDB) (q : query_t) (f : string) : setref :=
  match field_result g f (query_get q f) with
  | Normal r => r
  | Throw _ => PoolEmptySet
  end.

(** What one pass of the callback of [_insertIntoFieldIndex] does to the
    field index when it does not throw. *)
Definition index_add (e : entity) (fi : gmap string (gmap string (gset string)))
    (field : string) : gmap string (gmap string (gset string)) :=
  match fi !! field with
  | None => fi
  | Some fieldIndex =>
      let key := to_key (attr e field) in
      match fieldIndex !! key with
      | None => <[field := <[key := {[id e]}]> fieldIndex]> fi
      | Some s => <[field := <[key := {[id e]} ∪ s]> fieldIndex]> fi
      end
  end.

(** What one pass of the callback of [remove] does to the field index when
    it does not throw. *)
Definition index_del (e : entity) (fi : gmap string (gmap string (gset string)))
    (field : string) : gmap string (gmap string (gset string)) :=
  match fi !! field with
  | None => fi
  | Some fieldIndex =>
      let key := to_key (attr e field) in
      match fieldIndex !! key with
      | None => fi
      | Some s => <[field := <[key := s ∖ {[id e]}]> fieldIndex]> fi
      end
  end.

(** The configured fields [insert] files the entity under: those before the
    first one whose value has the name of an inherited property for key. *)
Fixpoint filed (e : entity) (l : list string) : list string :=
  match l with
  | [] => []
  | f :: l' =>
      if decide (to_key (attr e f) ∈ Object_prototype) then [] else f :: filed e l'
  end.

(** The configured fields [remove] purges: those before the first one under
    whose key the index has no set. *)
Fixpoint purged (e : entity) (fi : gmap string (gmap string (gset string)))
    (l : list string) : list string :=
  match l with
  | [] => []
  | f :: l' =>
      match fi !! f ≫= (.!! (to_key (attr e f))) with
      | Some _ => f :: purged e fi l'
      | None => []
      end
  end.

(** What holds of every state an engine can be in: an entity is stored under
    its own id, the sub-indexes are those of the configured fields, no set
    is filed under the name of an inherited property, the empty set of the
    pool is empty, and an identity store that is an array neither holds nor
    has filed the id [length]. *)
Definition invariant (g : GameDB) : Prop :=
  (∀ i e, byId g !! i = Some e → id e = i) ∧
  (∀ f, is_Some (fieldIndexes g !! f) ↔ f ∈ fieldsToIndex g) ∧
  emptySet (pool g) = ∅ ∧
  (∀ f k, is_Some (fieldIndexes g !! f ≫= (.!! k)) → k ∉ Object_prototype) ∧
  (byId_is_array g = true →
     byId g !! "length" = None ∧ ∀ f k, "length" ∉ slice g f k).

(** The field index agrees with the stored entities: an id is filed under a
    key of a configured field iff the entity stored under the id has an
    attribute value with that key. *)
Definition indexed (g : GameDB) : Prop :=
  ∀ f, f ∈ fieldsToIndex g → ∀ k i,
    i ∈ slice g f k ↔ ∃ e, byId g !! i = Some e ∧ to_key (attr e f) = k.

(** The persistent part of the state: all but the scratch pool. *)
Definition same_indexes (g g' : GameDB) : Prop :=
  byId g' = byId g ∧ byId_is_array g' = byId_is_array g ∧
  fieldIndexes g' = fieldIndexes g ∧
  spatialIndex g' = spatialIndex g ∧ fieldsToIndex g' = fieldsToIndex g.

(** A computation that leaves all but the scratch pool as it is, and in the
    pool the empty set. *)
Definition pool_only {A} (m : M A) : Prop :=
  ∀ g, same_indexes g (m g).2 ∧ emptySet (pool (m g).2) = emptySet (pool g).

End GameDB.

Abbreviation buffer := (list slot).

(** ** A reference spatial index and runtime *)

Module ListIndex.

(** [{ minX, minY, maxX, maxY }] *)
Record box := { minX : Z; minY : Z; maxX : Z; maxY : Z }.

(** Two boxes intersect, edges included. *)
Definition intersects (a b : box) : bool :=
  (minX b <=? maxX a)%Z && (minY b <=? maxY a)%Z &&
  (minX a <=? maxX b)%Z && (minY a <=? maxY b)%Z.

Fixpoint remove_entry (i : string) (t : list (string * box)) : list (string * box) :=
  match t with
  | [] => []
  | x :: t' => if decide (x.1 = i) then t' else x :: remove_entry i t'
  end.

(** Modelled from the spec: the external spatial range index (rbush), which
    is not part of the repository.  Section 4.2 of the spec: [insert],
    [remove] by id equality, [search] yielding the entries whose box
    intersects the bounds (inclusive on all edges), [clear]. *)
#[export] Instance list_index : SpatialIndex := {|
  bbox := box;
  rbush := list (string * box);
  rbush_new := [];
  rbush_insert x t := (t ++ [x])%list;
  rbush_remove := remove_entry;
  rbush_search b t := filter (λ x, intersects b x.2 = true) t;
  rbush_clear _ := [];
|}.

(** The static methods of [Object] and the methods of [Array.prototype], as
    ECMAScript 2024 has them. *)
Definition Object_methods : list string :=
  [ "assign"; "create"; "defineProperties"; "defineProperty"; "entries";
    "freeze"; "fromEntries"; "getOwnPropertyDescriptor";
    "getOwnPropertyDescriptors"; "getOwnPropertyNames";
    "getOwnPropertySymbols"; "getPrototypeOf"; "groupBy"; "hasOwn"; "is";
    "isExtensible"; "isFrozen"; "isSealed"; "keys"; "preventExtensions";
    "seal"; "setPrototypeOf"; "values" ].

Definition Array_methods : list string :=
  [ "at"; "concat"; "constructor"; "copyWithin"; "entries"; "every"; "fill";
    "filter"; "find"; "findIndex"; "findLast"; "findLastIndex"; "flat";
    "flatMap"; "forEach"; "includes"; "indexOf"; "join"; "keys";
    "lastIndexOf"; "map"; "pop"; "push"; "reduce"; "reduceRight"; "reverse";
    "shift"; "slice"; "some"; "sort"; "splice"; "toLocaleString";
    "toReversed"; "toSorted"; "toSpliced"; "toString"; "unshift"; "values";
    "with" ].

(** The number of parameters ([length]) of a method of [Object.prototype]. *)
Definition parameters (name : string) : nat :=
  if decide (name ∈ ["__defineGetter__"; "__defineSetter__"]) then 2
  else if decide (name ∈ ["toString"; "valueOf"; "toLocaleString"]) then 0
  else 1.

(** A property of a built-in function with the own properties [own] besides
    [length] and [name]: what it does not have itself comes from
    [Function.prototype], whose [arguments] and [caller] throw, and then from
    [Object.prototype]. *)
Definition function_property (length_ : nat) (own : list string) (key : string)
    : property :=
  if decide (key ∈ own) then Truthy
  else if decide (key = "length") then (if length_ is 0%nat then Falsy else Truthy)
  else if decide (key = "name") then Truthy
  else if decide (key ∈ ["arguments"; "caller"]) then Raises
  else if decide (key ∈ ["apply"; "bind"; "call"]) then Truthy
  else if decide (key ∈ Object_prototype) then Truthy
  else Falsy.

(** The runtime of the examples.  [Object.prototype.__proto__] is [null];
    [Object.prototype.constructor] is the function [Object], of one
    parameter; the other properties of [Object.prototype] are methods. *)
#[export] Instance runtime : Runtime := {|
  builtin_property name key :=
    if decide (name = "__proto__")
    then (if decide (key ∈ Object_prototype ∧ key ≠ "__proto__") then Truthy else Falsy)
    else if decide (name = "constructor")
    then function_property 1 ("prototype" :: Object_methods) key
    else function_property (parameters name) [] key;
  Array_prototype name := bool_decide (name ∈ Array_methods);
|}.

(** The entities of test/test.js, [new TestEntity(x, y, size, type, color)],
    under ids of their own, with the two properties the tests index. *)
Definition TestEntity (i : string) (ok : Is_true (assignable i))
    (x y size : Z) (type color : string) : entity :=
  {| id := i;
     id_assignable := ok;
     attributes := {[ "type" := VStr type; "color" := VStr color ]};
     getSpatialHandle := {| minX := x; minY := y; maxX := x + size; maxY := y + size |} |}.

Definition dog := TestEntity "dog" I 0 0 5 "animal" "black".
Definition cat := TestEntity "cat" I 12 13 2 "animal" "white".
Definition tree := TestEntity "tree" I 5 5 7 "plant" "green".
Definition flower := TestEntity "flower" I 7 2 2 "plant" "green".

(** The dog with its type changed, the dog at [x = 4], and an entity that is
    never inserted. *)
Definition zombie_dog := TestEntity "dog" I 0 0 5 "zombie" "black".
Definition moved_dog := TestEntity "dog" I 4 0 5 "animal" "black".
Definition ghost := TestEntity "ghost" I 1 1 1 "animal" "black".

(** An entity whose type is the number 5. *)
Definition five : entity :=
  {| id := "five";
     id_assignable := I;
     attributes := {[ "type" := VNum 5 I ]};
     getSpatialHandle := {| minX := 0; minY := 0; maxX := 1; maxY := 1 |} |}.

(** An entity whose type is the name of an inherited property, and one whose
    id is the name of the property of an array. *)
Definition builder := TestEntity "builder" I 1 1 1 "constructor" "black".
Definition long := TestEntity "length" I 1 1 1 "animal" "black".

(** [new GameSpace(["type", "color"])], and with the four entities in it. *)
Definition db0 : GameDB := constructor (Fields ["type"; "color"] I).
Definition db4 : GameDB :=
  run [Insert dog; Insert cat; Insert tree; Insert flower] db0.
Definition db_five : GameDB := after (Insert five) (constructor (Fields ["type"] I)).

(** The bounds and a query of the tests. *)
Definition upper_left : box := {| minX := 0; minY := 0; maxX := 3; maxY := 3 |}.
Definition animal_black : query_t := [("type", VStr "animal"); ("color", VStr "black")].

End ListIndex.

(** * Properties *)

Section Properties.
Context `{SI : SpatialIndex} `{RT : Runtime}.
Implicit Types (g : GameDB) (e : entity) (q : query_t) (i f : string) (k first : Z).

Ltac unfold_M :=
  unfold mbind, M_bind, bind, mret, M_ret, ret, this, update_pool, update, throw.
Ltac unfold_bind := unfold mbind, M_bind, bind, this.

(** ** Loops *)

Lemma forEach_update_pool {A} (l : list A) (h : A → Pool → Pool) g :
  forEach l (λ x, update_pool (h x)) g
  = (Normal tt, set_pool (foldl (λ p x, h x p) (pool g) l) g).
Proof.
  revert g. induction l as [|x l IH]; intros g; simpl.
  - by destruct g.
  - unfold mbind, M_bind, bind. simpl. by rewrite IH.
Qed.

Lemma forEach_update {A} (l : list A) (h : A → GameDB → GameDB) g :
  forEach l (λ x, update (h x)) g = (Normal tt, foldl (λ g x, h x g) g l).
Proof.
  revert g. induction l as [|x l IH]; intros g; simpl; first done.
  unfold mbind, M_bind, bind. simpl. by rewrite IH.
Qed.

Lemma forEach_cons {A} (x : A) (l : list A) (body : A → M unit) g :
  forEach (x :: l) body g
  = match body x g with
    | (Normal _, g') => forEach l body g'
    | (Throw err, g') => (Throw err, g')
    end.
Proof. done. Qed.

(** A loop whose body changes nothing changes nothing. *)
Lemma forEach_idle {A} (l : list A) (body : A → M unit) g :
  (∀ x, x ∈ l → body x g = (Normal tt, g) ∨ body x g = (Throw TypeError, g)) →
  forEach l body g = (Normal tt, g) ∨ forEach l body g = (Throw TypeError, g).
Proof.
  induction l as [|x l IH]; intros H; first by left.
  rewrite forEach_cons. destruct (H x) as [-> | ->]; [by left | | by right].
  apply IH. intros y Hy. apply H. by right.
Qed.

(** ** What a search leaves alone *)

Lemma same_indexes_refl g : same_indexes g g.
Proof. done. Qed.

Lemma same_indexes_trans g1 g2 g3 :
  same_indexes g1 g2 → same_indexes g2 g3 → same_indexes g1 g3.
Proof.
  intros (? & ? & ? & ? & ?) (? & ? & ? & ? & ?).
  repeat split; congruence.
Qed.

Lemma pool_only_ret {A} (a : A) : pool_only (ret a).
Proof. done. Qed.

Lemma pool_only_throw {A} err : pool_only (throw (A := A) err).
Proof. done. Qed.

Lemma pool_only_bind {A B} (m : M A) (h : A → M B) :
  pool_only m → (∀ a, pool_only (h a)) → pool_only (m ≫= h).
Proof.
  intros Hm Hh g. unfold mbind, M_bind, bind.
  specialize (Hm g). destruct (m g) as [[a|err] g1]; simpl in *; last done.
  specialize (Hh a g1). destruct Hm as [Hm1 Hm2], Hh as [Hh1 Hh2].
  split; [by eapply same_indexes_trans | congruence].
Qed.

Lemma pool_only_this {A} (h : GameDB → M A) :
  (∀ g, pool_only (h g)) → pool_only (this ≫= h).
Proof. intros H. apply pool_only_bind; [done | exact H]. Qed.

Lemma pool_only_update_pool (h : Pool → Pool) :
  (∀ p, emptySet (h p) = emptySet p) → pool_only (update_pool h).
Proof. intros H g. split; [done | apply H]. Qed.

Lemma pool_only_forEach {A} (l : list A) (body : A → M unit) :
  (∀ x, pool_only (body x)) → pool_only (forEach l body).
Proof.
  intros H. induction l as [|x l IH]; first done.
  simpl. apply pool_only_bind; [apply H | by intros _].
Qed.

Lemma pool_only_intersect_from s k first (sets : GameDB → list setref) :
  pool_only (intersect_from s k first sets).
Proof.
  apply pool_only_this. intros g. destruct (deref g s); last apply pool_only_throw.
  apply pool_only_forEach. intros x. apply pool_only_this. intros g'.
  destruct (intersects_loop _ _ _ _ _) as [[|]|];
    [by apply pool_only_update_pool | apply pool_only_ret | apply pool_only_throw].
Qed.

Lemma pool_only_plan (b : option bbox) (oq : option query_t) : pool_only (plan b oq).
Proof.
  destruct b, oq; simpl.
  - apply pool_only_this. intros g. case_decide; last apply pool_only_ret.
    destruct (smallest_loop _ _ _ _ _). apply pool_only_intersect_from.
  - by apply pool_only_update_pool.
  - apply pool_only_this. intros g. destruct (fields (pool g)) as [|r0 [|r1 F]].
    + apply pool_only_ret.
    + by apply pool_only_update_pool.
    + destruct (smallest_loop _ _ _ _ _). apply pool_only_intersect_from.
  - apply pool_only_ret.
Qed.

Lemma pool_only_search (b : option bbox) (oq : option query_t) (out : buffer) :
  pool_only (search b oq out).
Proof.
  unfold search. apply pool_only_bind; first done. intros out'.
  apply pool_only_bind.
  { unfold _clearPool. repeat (apply pool_only_bind; [by apply pool_only_update_pool | intros _]).
    by apply pool_only_update_pool. }
  intros _. apply pool_only_bind.
  { destruct b; last done. apply pool_only_this. intros g.
    apply pool_only_forEach. intros x. by apply pool_only_update_pool. }
  intros _. apply pool_only_bind.
  { destruct oq; last done. apply pool_only_forEach. intros f.
    apply pool_only_this. intros g. destruct (field_result _ _ _).
    - by apply pool_only_update_pool.
    - apply pool_only_throw. }
  intros _. apply pool_only_bind; first apply pool_only_plan.
  intros _. apply pool_only_this. intros g. simpl.
  destruct (deref g _); [apply pool_only_ret | apply pool_only_throw].
Qed.

(** ** The scratch pool after each phase of a search *)

Lemma _clearPool_run g : _clearPool g = (Normal tt, staged g ∅ []).
Proof. done. Qed.

Lemma foldl_spatial (l : list (string * bbox)) (p : Pool) :
  let p' := foldl (λ p x, set_spatial ({[x.1]} ∪ spatial p) p) p l in
  spatial p' = list_to_set l.*1 ∪ spatial p ∧ emptySet p' = emptySet p ∧
  fields p' = fields p ∧ ids p' = ids p ∧ resultReference p' = resultReference p.
Proof.
  revert p. induction l as [|x l IH]; intros p; simpl.
  - split; [set_solver | done].
  - destruct (IH (set_spatial ({[x.1]} ∪ spatial p) p)) as (-> & -> & -> & -> & ->).
    simpl. split; [set_solver | done].
Qed.

Lemma _spatialSearch_run b g S F :
  _spatialSearch b (staged g S F) = (Normal tt, staged g (spatial_hits b g ∪ S) F).
Proof.
  unfold _spatialSearch, mbind, M_bind, bind, this. simpl.
  rewrite (forEach_update_pool _ (λ entry p, set_spatial ({[entry.1]} ∪ spatial p) p)).
  do 2 f_equal.
  pose proof (foldl_spatial (rbush_search b (spatialIndex g)) (pool (staged g S F))) as H.
  simpl in H. destruct H as (H1 & H2 & H3 & H4 & H5).
  unfold spatial_hits. simpl.
  destruct (foldl _ _ _) as [a1 a2 a3 a4 a5]; simpl in *. by subst.
Qed.

(** ** The field search *)

Lemma field_result_throw g f v err : field_result g f v = Throw err → err = TypeError.
Proof.
  unfold field_result. destruct (fieldIndexes g !! f) as [fi|].
  - destruct (fi !! _); [done | by case_decide].
  - case_decide; last by intros [= <-]. destruct (builtin_property _ _); by intros [= <-].
Qed.

(** What [_fieldSearch] keeps is a slice, the empty set, or no set. *)
Lemma field_result_ref g f v r :
  field_result g f v = Normal r →
  (r = IndexSlice f (to_key v) ∧ is_Some (fieldIndexes g !! f ≫= (.!! (to_key v)))) ∨
  (r = PoolEmptySet ∧ fieldIndexes g !! f ≫= (.!! (to_key v)) = None) ∨
  r = NotASet.
Proof.
  unfold field_result. destruct (fieldIndexes g !! f) as [fi|]; simpl.
  - destruct (fi !! _) eqn:Hk.
    + intros [= <-]. left. split; [done | by eexists].
    + case_decide; intros [= <-]; [by right; right | by right; left].
  - case_decide; last done.
    destruct (builtin_property _ _); intros [= <-]; [by right; left | by right; right].
Qed.

Lemma a_set_dec g f v : Decision (a_set g f v).
Proof.
  unfold a_set. destruct (field_result g f v) as [r|err].
  - destruct (decide (r = NotASet)) as [->|Hr].
    + right. intros (r & [= <-] & Hr). done.
    + left. by exists r.
  - right. by intros (r & [=] & _).
Qed.

Lemma sets_only_dec g oq : Decision (sets_only g oq).
Proof.
  destruct oq as [q|]; simpl; last (left; done).
  apply Forall_dec. intros f. apply a_set_dec.
Qed.

Lemma fieldSearch_body_run q f g S F :
  fieldSearch_body q f (staged g S F)
  = match field_result g f (query_get q f) with
    | Normal r => (Normal tt, staged g S (F ++ [r]))
    | Throw err => (Throw err, staged g S F)
    end.
Proof.
  unfold fieldSearch_body. unfold_bind. simpl.
  change (field_result (staged g S F) f (query_get q f))
    with (field_result g f (query_get q f)).
  by destruct (field_result g f (query_get q f)).
Qed.

Lemma fieldSearch_loop_run q (l : list string) g S F :
  Forall (λ f, ∃ r, field_result g f (query_get q f) = Normal r) l →
  forEach l (fieldSearch_body q) (staged g S F)
  = (Normal tt, staged g S (F ++ (field_ref g q <$> l))).
Proof.
  revert F. induction l as [|f l IH]; intros F Hl.
  - simpl. by rewrite app_nil_r.
  - apply Forall_cons in Hl as [[r Hf] Hl].
    rewrite forEach_cons, fieldSearch_body_run, Hf.
    rewrite IH by done. rewrite <- app_assoc. simpl. unfold field_ref at 2. by rewrite Hf.
Qed.

Lemma fieldSearch_loop_throw q (l : list string) g S F :
  ¬ Forall (λ f, ∃ r, field_result g f (query_get q f) = Normal r) l →
  ∃ F', forEach l (fieldSearch_body q) (staged g S F)
        = (Throw TypeError, staged g S F').
Proof.
  revert F. induction l as [|f l IH]; intros F Hl.
  - destruct Hl. constructor.
  - rewrite forEach_cons, fieldSearch_body_run.
    destruct (field_result g f (query_get q f)) as [r|err] eqn:Hf.
    + apply IH. intros HF. apply Hl. constructor; [by eexists | done].
    + apply field_result_throw in Hf as ->. by exists F.
Qed.

(** ** The pivot and the membership loop *)

Lemma deref_set_of g r : r ≠ NotASet → deref g r = Some (set_of g r).
Proof. by destruct r. Qed.

(** The pivot is the start value or one of the scanned sets, and the index
    says which. *)
Lemma smallest_loop_index g (l : list setref) (n : Z) s k s' k' :
  smallest_loop g l n s k = (s', k') →
  (s' = s ∧ k' = k) ∨ ∃ j : nat, l !! j = Some s' ∧ k' = (n + Z.of_nat j)%Z.
Proof.
  revert n s k. induction l as [|r l IH]; intros n s k H; simpl in H.
  - left. by inversion H.
  - destruct (size_lt _ _).
    + apply IH in H as [[-> ->]|(j & Hj & ->)].
      * right. exists 0%nat. split; [done | lia].
      * right. exists (S j). split; [done | lia].
    + apply IH in H as [[-> ->]|(j & Hj & ->)].
      * by left.
      * right. exists (S j). split; [done | lia].
Qed.

(** A value that is not a set has no size and never is the smaller one: the
    pivot is a set when the start value is, and the start value when that is
    not a set. *)
Lemma smallest_loop_set g (l : list setref) (n : Z) s k s' k' :
  smallest_loop g l n s k = (s', k') → s ≠ NotASet → s' ≠ NotASet.
Proof.
  revert n s k. induction l as [|r l IH]; intros n s k H Hs; simpl in H.
  - by inversion H; subst.
  - destruct (size_lt _ _) eqn:Hlt; last by eapply IH.
    eapply IH; first done. intros ->. done.
Qed.

Lemma smallest_loop_not_set g (l : list setref) (n : Z) k :
  smallest_loop g l n NotASet k = (NotASet, k).
Proof.
  revert n. induction l as [|r l IH]; intros n; simpl; first done.
  replace (size_lt (ref_size g r) (ref_size g NotASet)) with false; first done.
  unfold ref_size. simpl. by destruct (size <$> deref g r).
Qed.

Lemma intersects_loop_throw g i k (first : Z) (l : list setref) err :
  intersects_loop g i k first l = Throw err → err = TypeError.
Proof.
  revert first. induction l as [|r l IH]; intros first; simpl; first done.
  case_decide; first apply IH. destruct (deref g r); last by intros [= <-].
  case_decide; [apply IH | done].
Qed.

Lemma intersects_loop_spec g i k (first : Z) (l : list setref) :
  NotASet ∉ l →
  ∃ b : bool, intersects_loop g i k first l = Normal b ∧
    (b = true ↔
     ∀ (j : nat) r, l !! j = Some r → (first + Z.of_nat j)%Z ≠ k → i ∈ set_of g r).
Proof.
  revert first. induction l as [|r l IH]; intros first Hl; simpl.
  - exists true. split; first done. split; [intros _ j r' Hj; by destruct j | done].
  - apply not_elem_of_cons in Hl as [Hr Hl].
    destruct (IH (first + 1)%Z Hl) as (b & Hb & Hbi).
    case_decide as Hk.
    + exists b. split; first done. rewrite Hbi. split.
      * intros H [|j] r' Hj Hne; simpl in Hj.
        -- exfalso. apply Hne. lia.
        -- apply (H j); [done | lia].
      * intros H j r' Hj Hne. apply (H (S j)); [done | lia].
    + rewrite deref_set_of by done. case_decide as Hin.
      * exists b. split; first done. rewrite Hbi. split.
        -- intros H [|j] r' Hj Hne; simpl in Hj.
           ++ by inversion Hj; subst.
           ++ apply (H j); [done | lia].
        -- intros H j r' Hj Hne. apply (H (S j)); [done | lia].
      * exists false. split; first done. split; first done.
        intros H. exfalso. apply Hin. apply (H 0%nat); [done | lia].
Qed.

(** Skipping the pivot loses nothing: an id of the pivot passes the loop iff
    it is in every set. *)
Lemma pivot_intersects g i k (first : Z) (l : list setref) s (j : nat) :
  NotASet ∉ l → l !! j = Some s → k = (first + Z.of_nat j)%Z →
  (i ∈ set_of g s ∧ intersects_loop g i k first l = Normal true) ↔
  ∀ r, r ∈ l → i ∈ set_of g r.
Proof.
  intros Hl Hj ->.
  destruct (intersects_loop_spec g i (first + Z.of_nat j)%Z first l Hl) as (b & -> & Hb).
  split.
  - intros [Hs [= ->]]. intros r Hr. apply list_elem_of_lookup in Hr as [j' Hj'].
    destruct (decide (j' = j)) as [->|Hne].
    + rewrite Hj in Hj'. by inversion Hj'; subst.
    + apply (proj1 Hb eq_refl j'); [done | lia].
  - intros H. split.
    + apply H. by eapply list_elem_of_lookup_2.
    + f_equal. apply Hb. intros j' r Hj' _. apply H. by eapply list_elem_of_lookup_2.
Qed.

(** With a value that is not a set among those compared, no id passes. *)
Lemma intersects_loop_not_set g i k (first : Z) (l : list setref) (j : nat) :
  l !! j = Some NotASet → (first + Z.of_nat j)%Z ≠ k →
  intersects_loop g i k first l = Normal false ∨
  intersects_loop g i k first l = Throw TypeError.
Proof.
  revert first j. induction l as [|r l IH]; intros first j Hj Hne; first done.
  simpl. destruct j as [|j]; simpl in Hj.
  - inversion Hj; subst r. rewrite decide_False by lia. by right.
  - case_decide; first (apply (IH _ j); [done | lia]).
    destruct (deref g r); last by right.
    case_decide; last by left. apply (IH _ j); [done | lia].
Qed.

Lemma intersects_loop_ext g g' i k (first : Z) (l : list setref) :
  (∀ r, r ∈ l → deref g' r = deref g r) →
  intersects_loop g' i k first l = intersects_loop g i k first l.
Proof.
  revert first. induction l as [|r l IH]; intros first H; simpl; first done.
  rewrite (H r) by left. rewrite IH; first done.
  intros r' Hr'. apply H. by right.
Qed.

Lemma deref_set_ids g X r :
  r ≠ PoolIds → deref (set_pool (set_ids X (pool g)) g) r = deref g r.
Proof. by destruct r. Qed.

(** ** The accumulating loop *)

Lemma intersect_loop_run g k first (setsl : list setref)
    (sets : GameDB → list setref) (l : list string) (Y : gset string) :
  (∀ X, sets (set_pool (set_ids X (pool g)) g) = setsl) →
  PoolIds ∉ setsl → NotASet ∉ setsl →
  ∃ X, forEach l (λ id_,
         g ← this;
         match intersects_loop g id_ k first (sets g) with
         | Throw err => throw err
         | Normal true => update_pool (λ p, set_ids ({[id_]} ∪ ids p) p)
         | Normal false => ret tt
         end) (set_pool (set_ids Y (pool g)) g)
       = (Normal tt, set_pool (set_ids X (pool g)) g) ∧
       ∀ i, i ∈ X ↔ i ∈ Y ∨ (i ∈ l ∧ intersects_loop g i k first setsl = Normal true).
Proof.
  intros Hsets Hids Hns. revert Y. induction l as [|x l IH]; intros Y; simpl.
  - exists Y. split; first done. set_solver.
  - unfold_bind. simpl. rewrite Hsets.
    rewrite (intersects_loop_ext g).
    2:{ intros r Hr. apply deref_set_ids. intros ->. done. }
    destruct (intersects_loop_spec g x k first setsl Hns) as (b & Hx & _).
    rewrite Hx. destruct b.
    + unfold update_pool, update. simpl.
      destruct (IH ({[x]} ∪ Y)) as (X & HX & HXi).
      exists X. split; first exact HX.
      intros i. rewrite HXi. rewrite elem_of_cons. split; [|set_solver].
      intros [Hi|Hi]; [|set_solver]. apply elem_of_union in Hi as [Hi|Hi]; [|by left].
      apply elem_of_singleton in Hi as ->. right. split; [by left|done].
    + unfold mret, M_ret, ret. simpl.
      destruct (IH Y) as (X & HX & HXi).
      exists X. split; first exact HX.
      intros i. rewrite HXi. rewrite elem_of_cons. split; [set_solver|].
      intros [Hi|[[->|Hi] Hl]]; [by left | congruence | by right].
Qed.

Lemma set_ids_same g : set_pool (set_ids (ids (pool g)) (pool g)) g = g.
Proof. by destruct g as [? ? ? ? ? []]. Qed.

Lemma intersect_from_run g s k first (sets : GameDB → list setref) :
  (∀ X, sets (set_pool (set_ids X (pool g)) g) = sets g) →
  PoolIds ∉ sets g → NotASet ∉ sets g → s ≠ NotASet →
  ∃ X, intersect_from s k first sets g = (Normal tt, set_pool (set_ids X (pool g)) g) ∧
       ∀ i, i ∈ X ↔
         i ∈ ids (pool g) ∨
         (i ∈ set_of g s ∧ intersects_loop g i k first (sets g) = Normal true).
Proof.
  intros Hsets Hids Hns Hs.
  destruct (intersect_loop_run g k first (sets g) sets (elements (set_of g s))
              (ids (pool g)) Hsets Hids Hns) as (X & HX & HXi).
  exists X. split.
  - unfold intersect_from. unfold_bind. cbv beta iota. rewrite deref_set_of by done.
    rewrite <- HX. by rewrite set_ids_same.
  - intros i. rewrite HXi. by rewrite elem_of_elements.
Qed.

Lemma intersect_from_idle g s k first (sets : GameDB → list setref) (j : nat) :
  sets g !! j = Some NotASet → (first + Z.of_nat j)%Z ≠ k →
  intersect_from s k first sets g = (Normal tt, g) ∨
  intersect_from s k first sets g = (Throw TypeError, g).
Proof.
  intros Hj Hne. unfold intersect_from. unfold_bind. cbv beta iota.
  destruct (deref g s) as [set|]; last by right.
  apply forEach_idle. intros x _. cbv beta iota.
  destruct (intersects_loop_not_set g x k first (sets g) j Hj Hne) as [-> | ->];
    [by left | by right].
Qed.

(** ** The result of a search *)

Lemma seq_run {A B} (m : M A) (h : M B) g :
  (m;; h) g = match m g with
              | (Normal _, g') => h g'
              | (Throw err, g') => (Throw err, g')
              end.
Proof. done. Qed.

Lemma _resolve_run (out : buffer) g :
  _resolve out g
  = match deref g (default PoolIds (resultReference (pool g))) with
    | Some set => (Normal (out ++ (byId_read g <$> elements set))%list, g)
    | None => (Throw TypeError, g)
    end.
Proof. unfold _resolve. unfold_bind. cbv beta zeta. by destruct (deref g _). Qed.


Lemma set_of_field_ref g g' q f :
  emptySet (pool g') = ∅ → fieldIndexes g' = fieldIndexes g →
  a_set g f (query_get q f) →
  set_of g' (field_ref g q f) = slice g f (to_key (query_get q f)).
Proof.
  intros He Hfi (r & Hr & Hns). unfold field_ref. rewrite Hr.
  apply field_result_ref in Hr as [[-> [s Hs]] | [[-> Hs] | ->]]; last done.
  - unfold set_of, slice, index_slice. simpl. unfold slice, index_slice. by rewrite Hfi.
  - unfold set_of, slice, index_slice. simpl. by rewrite Hs.
Qed.

Lemma field_ref_not_ids g q (l : list string) : PoolIds ∉ field_ref g q <$> l.
Proof.
  intros (f & H & _)%list_elem_of_fmap. unfold field_ref in H.
  destruct (field_result g f (query_get q f)) as [r|] eqn:Hr; last done.
  subst r. by apply field_result_ref in Hr as [[? _]|[[? _]|?]].
Qed.

Lemma field_ref_sets g q (l : list string) :
  Forall (λ f, a_set g f (query_get q f)) l → NotASet ∉ field_ref g q <$> l.
Proof.
  intros Hl (f & H & Hf)%list_elem_of_fmap.
  rewrite Forall_forall in Hl. destruct (Hl f Hf) as (r & Hr & Hns).
  unfold field_ref in H. rewrite Hr in H. by subst r.
Qed.

Lemma plan_run (b : option bbox) (oq : option query_t) g (S : gset string) (F : list setref) :
  PoolIds ∉ F → NotASet ∉ F →
  ∃ g', plan b oq (staged g S F) = (Normal tt, g') ∧
    default PoolIds (resultReference (pool g')) ≠ NotASet ∧
    ∀ i, i ∈ set_of g' (default PoolIds (resultReference (pool g'))) ↔
      match b, oq with
      | Some _, Some _ => F ≠ [] ∧ i ∈ S ∧ ∀ r, r ∈ F → i ∈ set_of (staged g S F) r
      | Some _, None => i ∈ S
      | None, Some _ => F ≠ [] ∧ ∀ r, r ∈ F → i ∈ set_of (staged g S F) r
      | None, None => False
      end.
Proof.
  intros HF HN. destruct b as [b|], oq as [q|]; unfold plan.
  - unfold_bind. simpl. case_decide as Hguard.
    + destruct (smallest_loop _ _ _ _ _) as [s k] eqn:Hsm.
      pose proof (smallest_loop_set _ _ _ _ _ _ _ Hsm) as Hset.
      apply smallest_loop_index in Hsm.
      destruct (intersect_from_run (staged g S F) s k (-1)
                  (λ g, PoolSpatial :: fields (pool g))) as (X & -> & HX).
      { done. }
      { simpl. intros [?|?]%elem_of_cons; done. }
      { simpl. intros [?|?]%elem_of_cons; done. }
      { by apply Hset. }
      eexists. split; first done. split; first done.
      intros i. simpl. unfold set_of at 1. simpl. rewrite HX. simpl.
      assert (∃ j : nat, (PoolSpatial :: F) !! j = Some s ∧ k = (-1 + Z.of_nat j)%Z)
        as (j & Hj & Hk).
      { destruct Hsm as [[-> ->]|(j & Hj & ->)].
        - exists 0%nat. split; [done | lia].
        - exists (Datatypes.S j). split; [done | lia]. }
      rewrite (pivot_intersects _ i k (-1) (PoolSpatial :: F) s j); [| | done..].
      2:{ intros [?|?]%elem_of_cons; done. }
      split.
      * intros [Hi|Hi]; first set_solver.
        split; first (intros ->; simpl in Hguard; lia).
        split; first (apply (Hi PoolSpatial); by left).
        intros r Hr. apply Hi. by right.
      * intros (_ & HS & Hi). right. intros r [->|Hr]%elem_of_cons; [done | by apply Hi].
    + eexists. split; first done. split; first done.
      intros i. simpl. unfold set_of at 1. simpl. split; first set_solver.
      intros (HFne & HS & _). exfalso. apply Hguard. split.
      * destruct F; [done | simpl; lia].
      * assert (size S ≠ 0); [|lia]. apply size_non_empty_iff. set_solver.
  - eexists. split; first done. done.
  - unfold_bind. simpl. destruct F as [|r0 [|r1 F]].
    + eexists. split; first done. split; first done.
      intros i. simpl. unfold set_of at 1. simpl. split; [set_solver | by intros [? _]].
    + eexists. split; first done. split.
      { simpl. intros ->. apply HN. by left. }
      intros i. simpl. split.
      * intros Hi. split; first done. by intros r ->%list_elem_of_singleton.
      * intros [_ Hi]. apply Hi. by left.
    + destruct (smallest_loop _ _ _ _ _) as [s k] eqn:Hsm.
      pose proof (smallest_loop_set _ _ _ _ _ _ _ Hsm) as Hset.
      apply smallest_loop_index in Hsm.
      destruct (intersect_from_run (staged g S (r0 :: r1 :: F)) s k 0
                  (λ g, fields (pool g))) as (X & -> & HX).
      { done. }
      { done. }
      { done. }
      { apply Hset. intros ->. apply HN. by left. }
      eexists. split; first done. split; first done.
      intros i. simpl. unfold set_of at 1. simpl. rewrite HX. simpl.
      assert (∃ j : nat, (r0 :: r1 :: F) !! j = Some s ∧ k = (0 + Z.of_nat j)%Z)
        as (j & Hj & Hk).
      { destruct Hsm as [[-> ->]|(j & Hj & ->)].
        - exists 0%nat. split; [done | lia].
        - exists (Datatypes.S j). split; [done | lia]. }
      rewrite (pivot_intersects _ i k 0 (r0 :: r1 :: F) s j); [| done..].
      split; [intros [Hi|Hi]; [set_solver | done] | intros [_ Hi]; by right].
  - eexists. split; first done. split; first done.
    intros i. simpl. unfold set_of. simpl. set_solver.
Qed.

(** With a value that is not a set among the field results, the search
    throws or yields nothing. *)
Lemma plan_not_set (b : option bbox) q g (S : gset string) (F : list setref) :
  PoolIds ∉ F → NotASet ∈ F →
  ∃ c g', (plan b (Some q);; _resolve []) (staged g S F) = (c, g') ∧
    (c = Throw TypeError ∨ c = Normal []).
Proof.
  intros HF HN.
  assert (∀ c', c' = (Normal tt, staged g S F) ∨ c' = (Throw TypeError, staged g S F) →
          ∃ c g', match c' with
                  | (Normal _, g1) => _resolve [] g1
                  | (Throw err, g1) => (Throw err, g1)
                  end = (c, g') ∧ (c = Throw TypeError ∨ c = Normal [])) as Hidle.
  { intros c' [-> | ->].
    - eexists _, _. split; first done. right. simpl. by rewrite elements_empty.
    - eexists _, _. split; first done. by left. }
  apply list_elem_of_lookup in HN as [j0 Hj0].
  rewrite seq_run.
  destruct b as [b|]; unfold plan.
  - unfold_bind. cbv beta iota. case_decide as Hguard.
    + simpl. destruct (smallest_loop _ _ _ _ _) as [s k] eqn:Hsm.
      pose proof (smallest_loop_set _ _ _ _ _ _ _ Hsm) as Hset.
      apply smallest_loop_index in Hsm.
      apply Hidle.
      apply (intersect_from_idle _ _ _ _ (λ g, PoolSpatial :: fields (pool g)) (Datatypes.S j0)).
      { done. }
      destruct Hsm as [[-> ->]|(j & Hj & ->)]; first lia.
      intros Heq. assert (j = j0) as -> by lia.
      rewrite Hj0 in Hj. inversion Hj; subst s. by apply Hset.
    + apply Hidle. by left.
  - unfold_bind. cbv beta iota. simpl. destruct F as [|r0 [|r1 F]].
    + done.
    + destruct j0; last done. inversion Hj0; subst r0.
      eexists _, _. split; first done. by left.
    + destruct (decide (r0 = NotASet)) as [->|Hr0].
      * rewrite smallest_loop_not_set.
        eexists _, _. split; first done. by left.
      * destruct (smallest_loop _ _ _ _ _) as [s k] eqn:Hsm.
        pose proof (smallest_loop_set _ _ _ _ _ _ _ Hsm Hr0) as Hset.
        apply smallest_loop_index in Hsm.
        apply Hidle.
        apply (intersect_from_idle _ _ _ _ (λ g, fields (pool g)) j0).
        { done. }
        destruct Hsm as [[-> ->]|(j & Hj & ->)].
        -- destruct j0; [by inversion Hj0 | lia].
        -- intros Heq. destruct j0 as [|j0]; first lia. simpl in Hj0.
           assert (j = j0) as -> by lia.
           rewrite Hj0 in Hj. by inversion Hj; subst s.
Qed.

(** The pool after the two index searches of [search b oq]. *)
Lemma search_phases b oq out g :
  search b oq out g
  = match (if oq is Some q then _fieldSearch q else ret tt)
            (staged g (if b is Some b' then spatial_hits b' g ∪ ∅ else ∅) []) with
    | (Normal _, g1) => (plan b oq;; _resolve []) g1
    | (Throw err, g1) => (Throw err, g1)
    end.
Proof.
  unfold search. unfold_bind. unfold _clearBuffer, mret, M_ret, ret.
  rewrite _clearPool_run. cbv beta iota.
  destruct b as [b|]; [rewrite _spatialSearch_run|]; done.
Qed.

(** A search leaves all but the scratch pool as it is. *)
Lemma search_state b oq out g :
  same_indexes g (search b oq out g).2 ∧
  emptySet (pool (search b oq out g).2) = emptySet (pool g).
Proof. apply pool_only_search. Qed.

Lemma byId_read_ext g g' i :
  same_indexes g g' → byId_read g' i = byId_read g i.
Proof. intros (Hb & Ha & _). unfold byId_read. by rewrite Hb, Ha. Qed.

Lemma search_sets b oq out g :
  emptySet (pool g) = ∅ → sets_only g oq →
  ∃ (R : gset string) g',
    search b oq out g = (Normal (byId_read g <$> elements R), g') ∧
    same_indexes g g' ∧ emptySet (pool g') = ∅ ∧
    ∀ i, i ∈ R ↔ selects g b oq i.
Proof.
  intros He Hk.
  pose proof (search_state b oq out g) as [Hsame Hempty].
  revert Hsame Hempty. rewrite search_phases.
  set (S := if b is Some b' then spatial_hits b' g ∪ ∅ else ∅).
  assert (∃ F, (if oq is Some q then _fieldSearch q else ret tt) (staged g S [])
               = (Normal tt, staged g S F) ∧ (PoolIds ∉ F) ∧ (NotASet ∉ F) ∧
               (F ≠ [] ↔ ∃ q, oq = Some q ∧ q ≠ []) ∧
               ∀ i, (∀ r, r ∈ F → i ∈ set_of (staged g S F) r) ↔
                    ∀ q, oq = Some q →
                      ∀ f, f ∈ keys q → i ∈ slice g f (to_key (query_get q f)))
    as (F & -> & HF & HN & Hne & Hrefs).
  { destruct oq as [q|].
    - exists (field_ref g q <$> keys q). split.
      + change (_fieldSearch q) with (forEach (keys q) (fieldSearch_body q)).
        rewrite fieldSearch_loop_run; first done.
        simpl in Hk. eapply Forall_impl; first exact Hk.
        intros f (r & Hr & _). by exists r.
      + split; first apply field_ref_not_ids.
        split; first by apply field_ref_sets. split.
        * split.
          -- intros H. exists q. split; first done. intros ->. by apply H.
          -- intros (q' & Hq' & Hq) Hnil. inversion Hq'; subst q'.
             apply Hq. by destruct q.
        * simpl in Hk. rewrite Forall_forall in Hk. intros i. split.
          -- intros Hall q' Hq' f Hf. inversion Hq'; subst q'.
             rewrite <- (set_of_field_ref g (staged g S (field_ref g q <$> keys q)))
               by auto.
             apply Hall. apply list_elem_of_fmap. by exists f.
          -- intros Hall r Hr. apply list_elem_of_fmap in Hr as (f & -> & Hf).
             rewrite set_of_field_ref by auto. by apply Hall.
    - exists []. split; first done. split; first by intros ?%elem_of_nil.
      split; first by intros ?%elem_of_nil. split.
      + split; [done | by intros (? & ? & ?)].
      + intros i. split; [done | by intros _ r ?%elem_of_nil]. }
  rewrite seq_run.
  destruct (plan_run b oq g S F HF HN) as (g' & -> & Hres & HR).
  rewrite _resolve_run, deref_set_of by done.
  intros Hsame Hempty. simpl in Hsame, Hempty.
  exists (set_of g' (default PoolIds (resultReference (pool g')))), g'.
  split.
  { simpl. do 2 f_equal. apply list_fmap_ext. intros _ i _. by apply byId_read_ext. }
  split; first done. split; first congruence.
  intros i. rewrite HR. unfold selects, in_bounds, in_query.
  destruct b as [b|], oq as [q|]; subst S; simpl.
  - rewrite Hrefs, Hne. split.
    + intros ((q' & Hq' & Hq) & Hi & Hall). inversion Hq'; subst q'.
      split; first by left; eexists.
      split; first set_solver. split; first done. by apply Hall.
    + intros (_ & Hi & Hq & Hall). split; first by exists q.
      split; first set_solver. intros q' Hq'. by inversion Hq'; subst q'.
  - split.
    + intros Hi. split; first by left; eexists. split; [set_solver | done].
    + intros (_ & Hi & _). set_solver.
  - rewrite Hrefs, Hne. split.
    + intros ((q' & Hq' & Hq) & Hall). inversion Hq'; subst q'.
      split; first by right; eexists.
      split; first done. split; first done. by apply Hall.
    + intros (_ & _ & Hq & Hall). split; first by exists q.
      intros q' Hq'. by inversion Hq'; subst q'.
  - split; first done. intros ([[? [=]]|[? [=]]] & _).
Qed.

Lemma returns_dec g q (l : list string) :
  Decision (Forall (λ f, ∃ r, field_result g f (query_get q f) = Normal r) l).
Proof.
  apply Forall_dec. intros f. destruct (field_result g f (query_get q f)) as [r|err].
  - left. by exists r.
  - right. by intros [r [=]].
Qed.

(** When a criterion gives no set, the search throws or yields nothing. *)
Lemma search_not_sets b oq out g :
  ¬ sets_only g oq →
  (search b oq out g).1 = Throw TypeError ∨ (search b oq out g).1 = Normal [].
Proof.
  intros Hk. rewrite search_phases. destruct oq as [q|]; last by destruct Hk.
  simpl in Hk.
  change (_fieldSearch q) with (forEach (keys q) (fieldSearch_body q)).
  set (S := if b is Some b' then spatial_hits b' g ∪ ∅ else ∅).
  destruct (returns_dec g q (keys q)) as [Hret|Hret].
  - rewrite fieldSearch_loop_run by done. simpl.
    destruct (plan_not_set b q g S (field_ref g q <$> keys q)) as (c & g' & -> & Hc).
    + apply field_ref_not_ids.
    + apply not_Forall_Exists in Hk; last (intros f; apply a_set_dec).
      apply Exists_exists in Hk as (f & Hf & Hns).
      apply list_elem_of_fmap. exists f. split; last done.
      rewrite Forall_forall in Hret. destruct (Hret f Hf) as [r Hr].
      unfold field_ref. rewrite Hr.
      destruct (decide (r = NotASet)) as [->|Hne]; first done.
      exfalso. apply Hns. by exists r.
    + done.
  - destruct (fieldSearch_loop_throw q (keys q) g S [] Hret) as [F' ->]. by left.
Qed.

Lemma search_appended b oq out g (o : slot) :
  emptySet (pool g) = ∅ →
  o ∈ appended (search b oq out g) ↔
  sets_only g oq ∧ ∃ i, selects g b oq i ∧ byId_read g i = o.
Proof.
  intros He. destruct (sets_only_dec g oq) as [Hk|Hk].
  - destruct (search_sets b oq out g He Hk) as (R & g' & Hs & _ & _ & HR).
    unfold appended. rewrite Hs. simpl. rewrite list_elem_of_fmap. split.
    + intros (i & -> & Hi%elem_of_elements). split; first done.
      exists i. by rewrite <- HR.
    + intros (_ & i & Hi & <-). exists i. split; first done.
      apply elem_of_elements. by apply HR.
  - unfold appended. destruct (search_not_sets b oq out g Hk) as [-> | ->].
    + split; [by intros ?%elem_of_nil | by intros [? _]].
    + split; [by intros ?%elem_of_nil | by intros [? _]].
Qed.

(** ** The field index under [insert] and [remove] *)

Lemma index_add_is_Some e fi f0 f :
  is_Some (index_add e fi f0 !! f) ↔ is_Some (fi !! f).
Proof.
  unfold index_add. destruct (fi !! f0) as [fx|] eqn:H0; last done.
  destruct (fx !! _); rewrite lookup_insert; case_decide; subst;
    rewrite ?H0; split; eauto.
Qed.

Lemma index_del_is_Some e fi f0 f :
  is_Some (index_del e fi f0 !! f) ↔ is_Some (fi !! f).
Proof.
  unfold index_del. destruct (fi !! f0) as [fx|] eqn:H0; last done.
  destruct (fx !! _); last done. rewrite lookup_insert; case_decide; subst;
    rewrite ?H0; split; eauto.
Qed.

Lemma index_add_slice e fi f0 f (k i : string) :
  is_Some (fi !! f0) →
  i ∈ index_slice (index_add e fi f0) f k ↔
  i ∈ index_slice fi f k ∨ (i = id e ∧ f = f0 ∧ k = to_key (attr e f)).
Proof.
  intros [fx H0]. unfold index_add, index_slice. rewrite H0.
  destruct (fx !! to_key (attr e f0)) as [s|] eqn:Hs;
    rewrite lookup_insert; case_decide as Hf; subst; simpl.
  - rewrite lookup_insert, H0. simpl. case_decide as Hk; subst; simpl.
    + rewrite Hs. simpl. set_solver.
    + split; [by left | intros [?|(_ & _ & ->)]; done].
  - split; [by left | intros [?|(_ & -> & _)]; done].
  - rewrite lookup_insert, H0. simpl. case_decide as Hk; subst; simpl.
    + rewrite Hs. simpl. set_solver.
    + split; [by left | intros [?|(_ & _ & ->)]; done].
  - split; [by left | intros [?|(_ & -> & _)]; done].
Qed.

Lemma index_del_slice e fi f0 f (k i : string) :
  i ∈ index_slice (index_del e fi f0) f k ↔
  i ∈ index_slice fi f k ∧ ¬ (i = id e ∧ f = f0 ∧ k = to_key (attr e f)).
Proof.
  unfold index_del, index_slice.
  destruct (fi !! f0) as [fx|] eqn:H0.
  - destruct (fx !! to_key (attr e f0)) as [s|] eqn:Hs.
    + rewrite lookup_insert; case_decide as Hf; subst; simpl.
      * rewrite lookup_insert, H0. simpl. case_decide as Hk; subst; simpl.
        -- rewrite Hs. simpl. set_solver.
        -- split; [intros ?; split; [done | by intros (_ & _ & ->)] | by intros [? _]].
      * split; [intros ?; split; [done | by intros (_ & -> & _)] | by intros [? _]].
    + split; last by intros [? _]. intros Hi. split; first done.
      intros (_ & -> & ->). rewrite H0 in Hi. simpl in Hi. rewrite Hs in Hi.
      simpl in Hi. set_solver.
  - split; last by intros [? _]. intros Hi. split; first done.
    intros (_ & -> & _). rewrite H0 in Hi. simpl in Hi. set_solver.
Qed.

(** Deleting an id from a set keeps the set in the index. *)
Lemma index_del_has_set e fi f0 f (k : string) :
  is_Some (index_del e fi f0 !! f ≫= (.!! k)) ↔ is_Some (fi !! f ≫= (.!! k)).
Proof.
  unfold index_del. destruct (fi !! f0) as [fx|] eqn:H0; last done.
  destruct (fx !! to_key (attr e f0)) as [s|] eqn:Hs; last done.
  rewrite lookup_insert; case_decide as Hf; subst; simpl; last done.
  rewrite H0. simpl. rewrite lookup_insert; case_decide as Hk; subst; last done.
  rewrite Hs. split; eauto.
Qed.

Lemma foldl_index_add_is_Some e (l : list string) fi f :
  is_Some (foldl (index_add e) fi l !! f) ↔ is_Some (fi !! f).
Proof.
  revert fi. induction l as [|f0 l IH]; intros fi; simpl; first done.
  by rewrite IH, index_add_is_Some.
Qed.

Lemma foldl_index_del_is_Some e (l : list string) fi f :
  is_Some (foldl (index_del e) fi l !! f) ↔ is_Some (fi !! f).
Proof.
  revert fi. induction l as [|f0 l IH]; intros fi; simpl; first done.
  by rewrite IH, index_del_is_Some.
Qed.

Lemma foldl_index_del_has_set e (l : list string) fi f (k : string) :
  is_Some (foldl (index_del e) fi l !! f ≫= (.!! k)) ↔ is_Some (fi !! f ≫= (.!! k)).
Proof.
  revert fi. induction l as [|f0 l IH]; intros fi; simpl; first done.
  by rewrite IH, index_del_has_set.
Qed.

Lemma foldl_index_add_slice e (l : list string) fi f (k i : string) :
  Forall (λ f, is_Some (fi !! f)) l →
  i ∈ index_slice (foldl (index_add e) fi l) f k ↔
  i ∈ index_slice fi f k ∨ (i = id e ∧ f ∈ l ∧ k = to_key (attr e f)).
Proof.
  revert fi. induction l as [|f0 l IH]; intros fi Hl; simpl.
  - split; [by left | intros [?|(_ & ?%elem_of_nil & _)]; done].
  - apply Forall_cons in Hl as [H0 Hl]. rewrite IH.
    2:{ eapply Forall_impl; first exact Hl. intros f'. by rewrite index_add_is_Some. }
    rewrite index_add_slice by done. rewrite elem_of_cons. naive_solver.
Qed.

Lemma foldl_index_del_slice e (l : list string) fi f (k i : string) :
  i ∈ index_slice (foldl (index_del e) fi l) f k ↔
  i ∈ index_slice fi f k ∧ ¬ (i = id e ∧ f ∈ l ∧ k = to_key (attr e f)).
Proof.
  revert fi. induction l as [|f0 l IH]; intros fi; simpl.
  - split; [intros ?; split; [done | by intros (_ & ?%elem_of_nil & _)] | by intros [? _]].
  - rewrite IH, index_del_slice, elem_of_cons. naive_solver.
Qed.

Lemma index_add_has_set e fi f0 f (k : string) :
  is_Some (index_add e fi f0 !! f ≫= (.!! k)) ↔
  is_Some (fi !! f ≫= (.!! k)) ∨
  (is_Some (fi !! f0) ∧ f = f0 ∧ k = to_key (attr e f0)).
Proof.
  unfold index_add. destruct (fi !! f0) as [fx|] eqn:H0.
  2:{ split; [by left | intros [?|([? ?] & _)]; done]. }
  destruct (fx !! to_key (attr e f0)) as [s|] eqn:Hs;
    rewrite lookup_insert; case_decide as Hf; subst; simpl.
  - rewrite H0. simpl. rewrite lookup_insert. case_decide as Hk; subst.
    + rewrite Hs. split; [by left; eexists | by eexists].
    + split; [by left | intros [?|(_ & _ & ->)]; done].
  - split; [by left | intros [?|(_ & -> & _)]; done].
  - rewrite H0. simpl. rewrite lookup_insert. case_decide as Hk; subst.
    + split; [right; split; [by eexists | done] | by eexists].
    + split; [by left | intros [?|(_ & _ & ->)]; done].
  - split; [by left | intros [?|(_ & -> & _)]; done].
Qed.

Lemma foldl_index_add_has_set e (l : list string) fi f (k : string) :
  is_Some (foldl (index_add e) fi l !! f ≫= (.!! k)) →
  is_Some (fi !! f ≫= (.!! k)) ∨ (f ∈ l ∧ k = to_key (attr e f)).
Proof.
  revert fi. induction l as [|f0 l IH]; intros fi; simpl; first by left.
  intros [H|[Hf ->]]%IH.
  - apply index_add_has_set in H as [H|(_ & -> & ->)]; [by left | right].
    split; [by left | done].
  - right. split; [by right | done].
Qed.

(** The fields an entity is filed under, and those it is purged from. *)
Lemma filed_all e (l : list string) :
  Forall (λ f, to_key (attr e f) ∉ Object_prototype) l → filed e l = l.
Proof.
  induction l as [|f l IH]; intros Hl; simpl; first done.
  apply Forall_cons in Hl as [Hf Hl]. rewrite decide_False by done. by rewrite IH.
Qed.

Lemma filed_keys e (l : list string) f :
  f ∈ filed e l → f ∈ l ∧ to_key (attr e f) ∉ Object_prototype.
Proof.
  induction l as [|f0 l IH]; simpl; first by intros ?%elem_of_nil.
  case_decide; first by intros ?%elem_of_nil.
  intros [->|Hf]%elem_of_cons.
  - split; [by left | done].
  - destruct (IH Hf). split; [by right | done].
Qed.

Lemma filed_prefix e (l : list string) :
  filed e l = l ∨
  ∃ f (l2 : list string), l = (filed e l ++ f :: l2)%list ∧
    to_key (attr e f) ∈ Object_prototype.
Proof.
  induction l as [|f l IH]; simpl; first by left.
  case_decide as Hf.
  - right. by exists f, l.
  - destruct IH as [->|(f' & l2 & Hl & Hf')]; first by left.
    right. exists f', l2. split; last done. simpl. by rewrite <- Hl.
Qed.

Lemma purged_index_del e e' fi f0 (l : list string) :
  purged e (index_del e' fi f0) l = purged e fi l.
Proof.
  induction l as [|f l IH]; simpl; first done.
  destruct (index_del e' fi f0 !! f ≫= _) as [s|] eqn:H1;
    destruct (fi !! f ≫= _) as [s'|] eqn:H2.
  - by rewrite IH.
  - assert (is_Some (fi !! f ≫= (.!! (to_key (attr e f))))) as [? Hs].
    { apply (index_del_has_set e' fi f0). by eexists. }
    congruence.
  - assert (is_Some (index_del e' fi f0 !! f ≫= (.!! (to_key (attr e f))))) as [? Hs].
    { apply index_del_has_set. by eexists. }
    congruence.
  - done.
Qed.

Lemma purged_all e fi (l : list string) :
  Forall (λ f, is_Some (fi !! f ≫= (.!! (to_key (attr e f))))) l → purged e fi l = l.
Proof.
  induction l as [|f l IH]; intros Hl; simpl; first done.
  apply Forall_cons in Hl as [[s Hs] Hl]. rewrite Hs. by rewrite IH.
Qed.

Lemma purged_keys e fi (l : list string) f :
  f ∈ purged e fi l → f ∈ l ∧ is_Some (fi !! f ≫= (.!! (to_key (attr e f)))).
Proof.
  induction l as [|f0 l IH]; simpl; first by intros ?%elem_of_nil.
  destruct (fi !! f0 ≫= _) as [s|] eqn:Hs; last by intros ?%elem_of_nil.
  intros [->|Hf]%elem_of_cons.
  - split; [by left | by eexists].
  - destruct (IH Hf). split; [by right | done].
Qed.

Lemma purged_prefix e fi (l : list string) :
  purged e fi l = l ∨
  ∃ f (l2 : list string), l = (purged e fi l ++ f :: l2)%list ∧
    fi !! f ≫= (.!! (to_key (attr e f))) = None.
Proof.
  induction l as [|f l IH]; simpl; first by left.
  destruct (fi !! f ≫= _) as [s|] eqn:Hs.
  - destruct IH as [->|(f' & l2 & Hl & Hf')]; first by left.
    right. exists f', l2. split; last done. simpl. by rewrite <- Hl.
  - right. by exists f, l.
Qed.

(** ** What the mutators leave behind *)

Lemma refused_test g e :
  byId_is_array g && bool_decide (id e = "length") = bool_decide (refused g e).
Proof.
  destruct (decide (refused g e)) as [[Ha Hl]|Hr].
  - rewrite (bool_decide_eq_true_2 (refused g e)) by done.
    rewrite Ha. simpl. by apply bool_decide_eq_true_2.
  - rewrite (bool_decide_eq_false_2 (refused g e)) by done.
    destruct (byId_is_array g) eqn:Ha; simpl; last done.
    apply bool_decide_eq_false_2. intros Hl. by apply Hr.
Qed.

Lemma insertIntoFieldIndex_body_run e f g :
  is_Some (fieldIndexes g !! f) →
  to_key (attr e f) ∉ Object_prototype →
  insertIntoFieldIndex_body e f g
  = (Normal tt, set_fieldIndexes (index_add e (fieldIndexes g) f) g).
Proof.
  intros [fx Hfx] Hk. unfold insertIntoFieldIndex_body, index_add. unfold_M. simpl.
  rewrite Hfx. destruct (fx !! _); first done. by rewrite decide_False.
Qed.

Lemma insertIntoFieldIndex_body_throw e f g :
  fieldIndexes g !! f ≫= (.!! (to_key (attr e f))) = None →
  to_key (attr e f) ∈ Object_prototype →
  insertIntoFieldIndex_body e f g = (Throw TypeError, g).
Proof.
  intros Hs Hk. unfold insertIntoFieldIndex_body. unfold_M. simpl.
  destruct (fieldIndexes g !! f) as [fx|]; last done. simpl in Hs. rewrite Hs.
  by rewrite decide_True.
Qed.

Lemma set_fieldIndexes_same g : set_fieldIndexes (fieldIndexes g) g = g.
Proof. by destruct g. Qed.

(** The loop of [_insertIntoFieldIndex] files the entity under the fields
    before the first one whose value has the name of an inherited property,
    at which it throws. *)
Lemma insert_loop e (l : list string) g :
  Forall (λ f, is_Some (fieldIndexes g !! f)) l →
  (∀ f (k : string), is_Some (fieldIndexes g !! f ≫= (.!! k)) → k ∉ Object_prototype) →
  forEach l (insertIntoFieldIndex_body e) g
  = (if decide (Forall (λ f, to_key (attr e f) ∉ Object_prototype) l)
     then Normal tt else Throw TypeError,
     set_fieldIndexes (foldl (index_add e) (fieldIndexes g) (filed e l)) g).
Proof.
  revert g. induction l as [|f l IH]; intros g Hl Hkeys.
  - rewrite decide_True by constructor. cbn [filed foldl].
    by rewrite set_fieldIndexes_same.
  - apply Forall_cons in Hl as [Hf Hl]. rewrite forEach_cons. cbn [filed].
    destruct (decide (to_key (attr e f) ∈ Object_prototype)) as [Hk|Hk].
    + rewrite insertIntoFieldIndex_body_throw; [| |done].
      2:{ destruct (fieldIndexes g !! f ≫= _) eqn:Hs; last done.
          exfalso. eapply Hkeys; [by eexists | done]. }
      rewrite decide_False by (intros [? _]%Forall_cons; done).
      cbn [foldl]. by rewrite set_fieldIndexes_same.
    + rewrite insertIntoFieldIndex_body_run by done.
      rewrite IH.
      * cbn [foldl]. f_equal.
        destruct (decide (Forall (λ f, to_key (attr e f) ∉ Object_prototype) l))
          as [Hall|Hall].
        -- rewrite decide_True; [done | by constructor].
        -- rewrite decide_False; [done | by intros [_ ?]%Forall_cons].
      * eapply Forall_impl; first exact Hl. intros f'. simpl. by rewrite index_add_is_Some.
      * simpl. intros f' k' [H|(_ & -> & ->)]%index_add_has_set; [by eapply Hkeys | done].
Qed.

Lemma insert_run e g :
  Forall (λ f, is_Some (fieldIndexes g !! f)) (fieldsToIndex g) →
  (∀ f (k : string), is_Some (fieldIndexes g !! f ≫= (.!! k)) → k ∉ Object_prototype) →
  insert e g
  = if decide (refused g e) then (Throw RangeError, g)
    else
      let g1 := set_fieldIndexes
                  (foldl (index_add e) (fieldIndexes g) (filed e (fieldsToIndex g)))
                  (set_byId (<[id e := e]> (byId g)) g) in
      if decide (Forall (λ f, to_key (attr e f) ∉ Object_prototype) (fieldsToIndex g))
      then (Normal tt,
            set_spatialIndex (rbush_insert (id e, getSpatialHandle e) (spatialIndex g)) g1)
      else (Throw TypeError, g1).
Proof.
  intros Hl Hkeys. unfold insert, _insertIntoIdIndex, _insertIntoFieldIndex.
  unfold_bind. cbv beta iota. rewrite refused_test.
  destruct (decide (refused g e)) as [Hr|Hr].
  - by rewrite bool_decide_eq_true_2.
  - rewrite bool_decide_eq_false_2 by done. unfold update at 1. cbv beta iota.
    rewrite insert_loop by done. cbn [fieldIndexes fieldsToIndex set_byId].
    by destruct (decide (Forall _ (fieldsToIndex g))).
Qed.

Lemma remove_body_run e f g :
  is_Some (fieldIndexes g !! f ≫= (.!! (to_key (attr e f)))) →
  remove_body e f g = (Normal tt, set_fieldIndexes (index_del e (fieldIndexes g) f) g).
Proof.
  intros [s Hs]. unfold remove_body, index_del. unfold_M. simpl.
  destruct (fieldIndexes g !! f) as [fx|]; last done. simpl in Hs. by rewrite Hs.
Qed.

Lemma remove_body_throw e f g :
  fieldIndexes g !! f ≫= (.!! (to_key (attr e f))) = None →
  remove_body e f g = (Throw TypeError, g).
Proof.
  intros Hs. unfold remove_body. unfold_M. simpl.
  destruct (fieldIndexes g !! f) as [fx|]; last done. simpl in Hs. by rewrite Hs.
Qed.

(** The loop of [remove] purges the fields before the first one that has no
    set under the key of the entity's value, at which it throws. *)
Lemma remove_loop e (l : list string) g :
  forEach l (remove_body e) g
  = (if decide (Forall (λ f, is_Some (fieldIndexes g !! f ≫= (.!! (to_key (attr e f))))) l)
     then Normal tt else Throw TypeError,
     set_fieldIndexes
       (foldl (index_del e) (fieldIndexes g) (purged e (fieldIndexes g) l)) g).
Proof.
  revert g. induction l as [|f l IH]; intros g.
  - rewrite decide_True by constructor. cbn [purged foldl].
    by rewrite set_fieldIndexes_same.
  - rewrite forEach_cons. cbn [purged].
    destruct (fieldIndexes g !! f ≫= (.!! (to_key (attr e f)))) as [s|] eqn:Hs.
    + rewrite remove_body_run by (by eexists).
      rewrite IH. cbn [foldl fieldIndexes set_fieldIndexes].
      rewrite purged_index_del. f_equal.
      destruct (decide (Forall
        (λ f0, is_Some (index_del e (fieldIndexes g) f !! f0
                          ≫= (.!! (to_key (attr e f0))))) l)) as [Hall|Hall].
      * rewrite decide_True; first done.
        constructor; first by eexists.
        eapply Forall_impl; first exact Hall. intros f'. simpl.
        by rewrite index_del_has_set.
      * rewrite decide_False; first done.
        intros [_ H]%Forall_cons. apply Hall.
        eapply Forall_impl; first exact H. intros f'. simpl.
        by rewrite index_del_has_set.
    + rewrite remove_body_throw by done.
      rewrite decide_False.
      2:{ intros [[? ?] _]%Forall_cons. congruence. }
      cbn [foldl]. by rewrite set_fieldIndexes_same.
Qed.

Lemma remove_run e g :
  remove e g
  = if decide (refused g e) then (Throw TypeError, g)
    else
      let g1 := set_fieldIndexes
                  (foldl (index_del e) (fieldIndexes g)
                     (purged e (fieldIndexes g) (fieldsToIndex g)))
                  (set_byId (delete (id e) (byId g)) g) in
      if decide (Forall (λ f, is_Some (fieldIndexes g !! f ≫= (.!! (to_key (attr e f)))))
                   (fieldsToIndex g))
      then (Normal tt, set_spatialIndex (rbush_remove (id e) (spatialIndex g)) g1)
      else (Throw TypeError, g1).
Proof.
  unfold remove. unfold_bind. cbv beta iota. rewrite refused_test.
  destruct (decide (refused g e)) as [Hr|Hr].
  - by rewrite bool_decide_eq_true_2.
  - rewrite bool_decide_eq_false_2 by done. unfold update at 1. cbv beta iota.
    rewrite remove_loop. cbn [fieldIndexes fieldsToIndex set_byId].
    by destruct (decide (Forall _ (fieldsToIndex g))).
Qed.

Lemma move_run e g :
  move e g
  = (Normal tt,
     set_spatialIndex
       (rbush_insert (id e, getSpatialHandle e) (rbush_remove (id e) (spatialIndex g))) g).
Proof. done. Qed.

Lemma nuke_loop (l : list string) g :
  foldl (λ g f, set_fieldIndexes (<[f := ∅]> (fieldIndexes g)) g) g l
  = set_fieldIndexes (foldl (λ fi f, <[f := ∅]> fi) (fieldIndexes g) l) g.
Proof.
  revert g. induction l as [|f l IH]; intros g; simpl.
  - by destruct g.
  - by rewrite IH.
Qed.

Lemma nuke_run g :
  nuke g
  = (Normal tt,
     set_fieldIndexes (foldl (λ fi f, <[f := ∅]> fi) ∅ (fieldsToIndex g))
       (set_byId_is_array true
          (set_byId ∅ (set_spatialIndex (rbush_clear (spatialIndex g)) g)))).
Proof.
  unfold nuke, _clearSpatialIndex. unfold_bind. unfold update at 1 2 3.
  cbv beta iota. rewrite forEach_update, nuke_loop. done.
Qed.

Lemma foldl_fresh_is_Some (l : list string)
    (fi : gmap string (gmap string (gset string))) f :
  is_Some (foldl (λ fi f, <[f := ∅]> fi) fi l !! f) ↔ f ∈ l ∨ is_Some (fi !! f).
Proof.
  revert fi. induction l as [|f0 l IH]; intros fi; simpl.
  - split; [by right | intros [?%elem_of_nil|?]; done].
  - rewrite IH, elem_of_cons, lookup_insert. case_decide; subst; naive_solver.
Qed.

Lemma foldl_fresh_has_set (l : list string) f (k : string) :
  foldl (λ fi f, <[f := ∅]> fi) (∅ : gmap string (gmap string (gset string))) l
    !! f ≫= (.!! k) = None.
Proof.
  assert (∀ fi : gmap string (gmap string (gset string)),
            fi !! f ≫= (.!! k) = None →
            foldl (λ fi f, <[f := ∅]> fi) fi l !! f ≫= (.!! k) = None) as H.
  { induction l as [|f0 l IH]; intros fi Hfi; simpl; first done.
    apply IH. rewrite lookup_insert. case_decide; subst; simpl; [apply lookup_empty | done]. }
  apply H. by rewrite lookup_empty.
Qed.

(** ** Every state an engine can be in satisfies the invariant *)

Lemma invariant_configured g :
  invariant g → Forall (λ f, is_Some (fieldIndexes g !! f)) (fieldsToIndex g).
Proof. intros (_ & H & _). apply Forall_forall. intros f Hf. by apply H. Qed.

Lemma invariant_keys g f (k : string) :
  invariant g → is_Some (fieldIndexes g !! f ≫= (.!! k)) → k ∉ Object_prototype.
Proof. intros (_ & _ & _ & H & _). apply H. Qed.

Lemma invariant_ext g g' :
  byId g' = byId g → byId_is_array g' = byId_is_array g →
  fieldIndexes g' = fieldIndexes g → fieldsToIndex g' = fieldsToIndex g →
  emptySet (pool g') = emptySet (pool g) →
  invariant g → invariant g'.
Proof.
  intros Hb Ha Hfi Hfs He (H1 & H2 & H3 & H4 & H5).
  unfold invariant, slice. rewrite Hb, Ha, Hfi, Hfs, He. done.
Qed.

Lemma invariant_constructor (fs : configuration) : invariant (constructor fs).
Proof.
  split; [|split; [|split; [|split]]]; simpl.
  - intros i e. by rewrite lookup_empty.
  - intros f. rewrite foldl_fresh_is_Some, lookup_empty.
    split; [intros [?|[? ?]]; done | by left].
  - done.
  - intros f k. rewrite foldl_fresh_has_set. by intros [? ?].
  - done.
Qed.

Lemma invariant_after c g : invariant g → invariant (after c g).
Proof.
  intros Hinv. pose proof (invariant_configured g Hinv) as Hconf.
  pose proof (λ f (k : string), invariant_keys g f k Hinv) as Hkeys.
  unfold after. destruct c as [e|e|e|b oq out| |]; simpl.
  - rewrite insert_run by done. destruct Hinv as (Hid & Hdom & He & _ & Harr).
    case_decide as Hr; first done.
    assert (invariant
      (set_fieldIndexes
         (foldl (index_add e) (fieldIndexes g) (filed e (fieldsToIndex g)))
         (set_byId (<[id e := e]> (byId g)) g))) as Hinv1.
    { split; [|split; [|split; [|split]]]; simpl.
      - intros i e'. rewrite lookup_insert. case_decide; [by intros [= <-] | apply Hid].
      - by setoid_rewrite foldl_index_add_is_Some.
      - done.
      - intros f k [H|[Hf ->]]%foldl_index_add_has_set; first by eapply Hkeys.
        by apply filed_keys in Hf as [_ ?].
      - intros Ha. destruct (Harr Ha) as [Hlen Hfiled].
        assert (id e ≠ "length") as Hne by (intros ?; by apply Hr).
        split; first by rewrite lookup_insert_ne.
        intros f k. unfold slice. simpl. rewrite foldl_index_add_slice.
        + intros [H|(? & _)]; [by eapply Hfiled | done].
        + apply Forall_forall. intros f' [Hf' _]%filed_keys. by apply Hdom. }
    simpl. case_decide; last exact Hinv1.
    by apply (invariant_ext _ _ eq_refl eq_refl eq_refl eq_refl eq_refl Hinv1).
  - rewrite remove_run. destruct Hinv as (Hid & Hdom & He & _ & Harr).
    case_decide as Hr; first done.
    assert (invariant
      (set_fieldIndexes
         (foldl (index_del e) (fieldIndexes g)
            (purged e (fieldIndexes g) (fieldsToIndex g)))
         (set_byId (delete (id e) (byId g)) g))) as Hinv1.
    { split; [|split; [|split; [|split]]]; simpl.
      - intros i e' [_ H]%lookup_delete_Some. by apply Hid.
      - by setoid_rewrite foldl_index_del_is_Some.
      - done.
      - intros f k H%foldl_index_del_has_set. by eapply Hkeys.
      - intros Ha. destruct (Harr Ha) as [Hlen Hfiled].
        split; first by apply lookup_delete_None; right.
        intros f k. unfold slice. simpl. rewrite foldl_index_del_slice.
        intros [H _]. by eapply Hfiled. }
    simpl. case_decide; last exact Hinv1.
    by apply (invariant_ext _ _ eq_refl eq_refl eq_refl eq_refl eq_refl Hinv1).
  - by apply (invariant_ext _ _ eq_refl eq_refl eq_refl eq_refl eq_refl Hinv).
  - unfold_bind.
    destruct (search_state b oq out g) as ((Hb & Ha & Hfi & _ & Hfs) & He').
    destruct (search b oq out g) as [[r|err] g']; simpl in *;
      by apply (invariant_ext g g').
  - done.
  - rewrite nuke_run. split; [|split; [|split; [|split]]]; simpl.
    + intros i e. by rewrite lookup_empty.
    + intros f. rewrite foldl_fresh_is_Some, lookup_empty.
      split; [intros [?|[? ?]]; done | by left].
    + by destruct Hinv as (_ & _ & ? & _).
    + intros f k. rewrite foldl_fresh_has_set. by intros [? ?].
    + intros _. split; first by rewrite lookup_empty.
      intros f k. unfold slice, index_slice. simpl. rewrite foldl_fresh_has_set. set_solver.
Qed.

Lemma run_snoc (cs : list call) c g : run (cs ++ [c]) g = after c (run cs g).
Proof. unfold run. by rewrite foldl_app. Qed.

Lemma reachable_invariant g : reachable g → invariant g.
Proof.
  intros (fs & cs & ->). induction cs as [|c cs IH] using rev_ind.
  - apply invariant_constructor.
  - rewrite run_snoc. by apply invariant_after.
Qed.

Lemma reachable_after c g : reachable g → reachable (after c g).
Proof.
  intros (fs & cs & ->). exists fs, (cs ++ [c])%list. by rewrite run_snoc.
Qed.

Lemma reachable_constructor (fs : configuration) : reachable (constructor fs).
Proof. by exists fs, []. Qed.

Lemma reachable_run (cs : list call) g : reachable g → reachable (run cs g).
Proof.
  revert g. induction cs as [|c cs IH]; intros g Hg; first done.
  simpl. by apply IH, reachable_after.
Qed.

Lemma invariant_empty g : invariant g → emptySet (pool g) = ∅.
Proof. by intros (_ & _ & ? & _). Qed.

(** ** What a search appends *)

Lemma byId_read_entity g i e : byId_read g i = Entity e ↔ byId g !! i = Some e.
Proof.
  unfold byId_read. destruct (byId g !! i).
  - split; congruence.
  - by destruct (_ || _).
Qed.

(** The entities among the slots: each is the entity stored under its id. *)
Lemma search_appended_entity b oq out g e :
  invariant g →
  Entity e ∈ appended (search b oq out g) ↔
  sets_only g oq ∧ selects g b oq (id e) ∧ byId g !! id e = Some e.
Proof.
  intros Hinv. rewrite search_appended by (by apply invariant_empty).
  destruct Hinv as (Hid & _). setoid_rewrite byId_read_entity.
  split.
  - intros (Hk & i & Hi & Hb). by rewrite (Hid i e Hb) in *.
  - intros (Hk & Hi & Hb). split; first done. by exists (id e).
Qed.



(** * The properties of the specification *)



Lemma selects_single g f v (i : string) :
  selects g None (Some [(f, v)]) i ↔ i ∈ slice g f (to_key v).
Proof.
  unfold selects. simpl. split.
  - intros (_ & _ & _ & H). specialize (H f). rewrite decide_True in H by done.
    apply H. by left.
  - intros H. split; first (right; eauto). split; first done. split; first done.
    intros f' ->%list_elem_of_singleton. by rewrite decide_True.
Qed.


Lemma query_get_single f v : query_get [(f, v)] f = v.
Proof. cbn [query_get]. by rewrite decide_True. Qed.

Lemma sets_only_single g f v : sets_only g (Some [(f, v)]) ↔ a_set g f v.
Proof.
  unfold sets_only, keys. cbn [fmap list_fmap fst]. rewrite Forall_singleton.
  by rewrite query_get_single.
Qed.



(** C3, as the code has it.  A search with bounds and a query without
    criteria appends nothing, in any state: with no field result the
    intersection is skipped, the set of ids stays empty and no reference to
    the spatial result is taken. *)
Theorem search_bounds_empty_query g b (out : buffer) :
  (search (Some b) (Some []) out g).1 = Normal [] ∧
  resultReference (pool (search (Some b) (Some []) out g).2) = None ∧
  ids (pool (search (Some b) (Some []) out g).2) = ∅.
Proof.
  rewrite search_phases. simpl. by rewrite elements_empty.
Qed.

(** C7, as the code has it.  In every state an engine can be in - that of an
    engine configured with no field at all included - a search whose query
    names a field that is neither configured nor the name of a property
    every object inherits throws, whatever the bounds: a [TypeError], as
    [this.fieldIndexes[field]] is [undefined] and a property of it is
    read. *)
Theorem search_unknown_field g (b : option bbox) q (out : buffer) f :
  reachable g → f ∈ keys q → f ∉ fieldsToIndex g → f ∉ Object_prototype →
  (search b (Some q) out g).1 = Throw TypeError.
Proof.
  intros (_ & Hdom & _)%reachable_invariant Hf Hnot Hown.
  rewrite search_phases.
  change (_fieldSearch q) with (forEach (keys q) (fieldSearch_body q)).
  destruct (fieldSearch_loop_throw q (keys q) g
              (if b is Some b' then spatial_hits b' g ∪ ∅ else ∅) []) as [F' ->];
    last done.
  intros Hall. rewrite Forall_forall in Hall. destruct (Hall f Hf) as [r Hr].
  unfold field_result in Hr.
  destruct (fieldIndexes g !! f) as [fi|] eqn:Hfi.
  - apply Hnot, Hdom. by eexists.
  - by rewrite decide_False in Hr.
Qed.

(** C10.  A search, whatever its bounds and query and however it ends, leaves
    the identity store, the field index and the spatial index as they were:
    it writes to the scratch pool and to the caller's buffer only. *)
Theorem search_read_only g (b : option bbox) (oq : option query_t) (out : buffer) :
  byId (search b oq out g).2 = byId g ∧
  byId_is_array (search b oq out g).2 = byId_is_array g ∧
  fieldIndexes (search b oq out g).2 = fieldIndexes g ∧
  spatialIndex (search b oq out g).2 = spatialIndex g ∧
  fieldsToIndex (search b oq out g).2 = fieldsToIndex g.
Proof. apply search_state. Qed.

(** A search without bounds reads the identity store and the field index
    only. *)
Lemma query_search_ext g g' (oq : option query_t) (out out' : buffer) :
  byId g' = byId g → byId_is_array g' = byId_is_array g →
  fieldIndexes g' = fieldIndexes g →
  emptySet (pool g) = ∅ → emptySet (pool g') = ∅ →
  appended (search None oq out' g') = appended (search None oq out g).
Proof.
  intros Hb Ha Hfi He He'.
  assert (sets_only g' oq ↔ sets_only g oq) as Hsets.
  { unfold sets_only, a_set, field_result. by rewrite Hfi. }
  unfold appended. destruct (sets_only_dec g oq) as [Hk|Hk].
  - destruct (search_sets None oq out g He Hk) as (R & g1 & -> & _ & _ & HR).
    destruct (search_sets None oq out' g' He' (proj2 Hsets Hk))
      as (R' & g2 & -> & _ & _ & HR').
    simpl. replace R' with R.
    + apply list_fmap_ext. intros _ i _. unfold byId_read. by rewrite Hb, Ha.
    + apply set_eq. intros i. rewrite HR, HR'. unfold selects, in_query, slice.
      by rewrite Hfi.
  - assert (¬ sets_only g' oq) as Hk' by (by rewrite Hsets).
    destruct (search_not_sets None oq out g Hk) as [-> | ->];
      destruct (search_not_sets None oq out' g' Hk') as [-> | ->]; done.
Qed.

(** C9.  In every state an engine can be in, [move] ends normally and leaves
    the identity store and the field index untouched, so every field query
    appends the same slots after the move as before it. *)
Theorem move_keeps_field_matching g e :
  reachable g →
  (move e g).1 = Normal tt ∧
  byId (move e g).2 = byId g ∧
  fieldIndexes (move e g).2 = fieldIndexes g ∧
  ∀ q (out out' : buffer),
    appended (search None (Some q) out' (move e g).2)
    = appended (search None (Some q) out g).
Proof.
  intros Hr. split; first done. split; first done. split; first done.
  intros q out out'.
  apply reachable_invariant, invariant_empty in Hr.
  by apply query_search_ext.
Qed.

(** ** The field index of a well-used engine *)

Lemma index_slice_fresh (l : list string) f (k : string) :
  index_slice (foldl (λ fi f, <[f := ∅]> fi) ∅ l) f k = ∅.
Proof. unfold index_slice. by rewrite foldl_fresh_has_set. Qed.

Lemma elem_of_index_slice_is_Some fi f (k i : string) :
  i ∈ index_slice fi f k → is_Some (fi !! f ≫= (.!! k)).
Proof.
  unfold index_slice. destruct (fi !! f ≫= _); [eauto | set_solver].
Qed.

Lemma indexed_constructor (fs : configuration) : indexed (constructor fs).
Proof.
  intros f _ k i. unfold slice. simpl. rewrite index_slice_fresh. split.
  - set_solver.
  - intros (e & He & _). by rewrite lookup_empty in He.
Qed.

(** A call of [insert] that respects the contract ends normally. *)
Lemma respected_insert_run g e :
  invariant g → respects g (Insert e) →
  insert e g
  = (Normal tt,
     set_spatialIndex (rbush_insert (id e, getSpatialHandle e) (spatialIndex g))
       (set_fieldIndexes (foldl (index_add e) (fieldIndexes g) (fieldsToIndex g))
          (set_byId (<[id e := e]> (byId g)) g))).
Proof.
  intros Hinv (_ & Hr & Hkeys).
  rewrite insert_run;
    [|by apply invariant_configured|intros f k; by apply invariant_keys].
  rewrite decide_False by done. simpl.
  rewrite decide_True by (by apply Forall_forall).
  rewrite filed_all; [done | by apply Forall_forall].
Qed.

(** A call of [remove] that respects the contract ends normally. *)
Lemma respected_remove_run g e :
  invariant g → indexed g → respects g (Remove e) →
  remove e g
  = (Normal tt,
     set_spatialIndex (rbush_remove (id e) (spatialIndex g))
       (set_fieldIndexes (foldl (index_del e) (fieldIndexes g) (fieldsToIndex g))
          (set_byId (delete (id e) (byId g)) g))).
Proof.
  intros Hinv Hidx (e' & He' & Hattr).
  assert (∀ f, attr e' f = attr e f) as Hattr' by (intros f; unfold attr; by rewrite Hattr).
  assert (Forall (λ f, is_Some (fieldIndexes g !! f ≫= (.!! (to_key (attr e f)))))
            (fieldsToIndex g)) as Hall.
  { apply Forall_forall. intros f Hf.
    apply (elem_of_index_slice_is_Some _ _ _ (id e)). fold (slice g f (to_key (attr e f))).
    apply Hidx; first done. exists e'. by rewrite Hattr'. }
  rewrite remove_run. rewrite decide_False.
  2:{ intros [Ha Hl]. destruct Hinv as (_ & _ & _ & _ & Harr).
      destruct (Harr Ha) as [Hlen _]. rewrite Hl in He'. congruence. }
  simpl. rewrite decide_True by done. by rewrite purged_all.
Qed.

Lemma indexed_after c g :
  invariant g → indexed g → respects g c → indexed (after c g).
Proof.
  intros Hinv Hidx Hc. pose proof (invariant_configured g Hinv) as Hconf.
  unfold after. destruct c as [e|e|e|b oq out| |].
  - simpl. rewrite respected_insert_run by done.
    intros f Hf k i. unfold slice. simpl in *.
    rewrite foldl_index_add_slice by done. fold (slice g f k).
    rewrite (Hidx f Hf k i), lookup_insert. destruct Hc as (Hc & _).
    case_decide as Hi; subst.
    + split.
      * intros [(e' & He' & _)|(_ & _ & ->)]; [congruence | by exists e].
      * intros (e' & [= <-] & <-). by right.
    + split; [intros [?|(-> & _)]; done | by left].
  - simpl. rewrite respected_remove_run by done. destruct Hc as (e' & He' & Hattr).
    assert (∀ f, attr e' f = attr e f) as Hattr' by (intros f; unfold attr; by rewrite Hattr).
    intros f Hf k i. unfold slice. simpl in *.
    rewrite foldl_index_del_slice. fold (slice g f k).
    rewrite (Hidx f Hf k i). split.
    + intros [(e'' & He'' & Hk) Hne]. exists e''. split; last done.
      apply lookup_delete_Some. split; last done.
      intros <-. apply Hne. split; first done. split; first done.
      rewrite He' in He''. injection He'' as <-. by rewrite <- Hattr'.
    + intros (e'' & [Hne He'']%lookup_delete_Some & Hk). split; first by exists e''.
      by intros (-> & _).
  - done.
  - simpl. unfold_bind.
    destruct (search_state b oq out g) as ((Hb & _ & Hfi & _ & Hfs) & _).
    destruct (search b oq out g) as [[r|err] g']; simpl in *;
      intros f Hf k i; unfold slice; rewrite Hfi, Hb; apply Hidx; by rewrite <- Hfs.
  - done.
  - simpl. rewrite nuke_run. intros f _ k i. unfold slice. simpl.
    rewrite index_slice_fresh. split.
    + set_solver.
    + intros (e & He & _). by rewrite lookup_empty in He.
Qed.

Lemma well_used_reachable g : well_used g → reachable g.
Proof.
  induction 1; [apply reachable_constructor | by apply reachable_after].
Qed.

Lemma well_used_indexed g : well_used g → indexed g.
Proof.
  induction 1 as [fs|g c Hg IH Hc]; first apply indexed_constructor.
  apply indexed_after; [|done..]. by apply reachable_invariant, well_used_reachable.
Qed.

(** A criterion on a configured field gives a set unless the key of its
    value is the name of an inherited property. *)
Lemma a_set_configured g f v :
  invariant g → f ∈ fieldsToIndex g →
  a_set g f v ↔ to_key v ∉ Object_prototype.
Proof.
  intros Hinv Hf. pose proof Hinv as (_ & Hdom & _).
  apply Hdom in Hf as [fi Hfi]. unfold a_set, field_result. rewrite Hfi.
  destruct (fi !! to_key v) as [s|] eqn:Hs.
  - split; first intros _.
    + apply (invariant_keys g f); first done. rewrite Hfi. simpl. by eexists.
    + intros _. by eexists.
  - case_decide as Hk.
    + split; last done. by intros (r & [= <-] & ?).
    + split; first done. intros _. by eexists.
Qed.

(** C4, as the code has it.  In every state of an engine used as its methods
    require, and for every configured field [f] and value [v] whose key is
    not the name of an inherited property, a search for [{f: v}] appends
    exactly the stored entities whose attribute [f] has the same property key
    as [v]: the field index is keyed by the key a value is coerced to, so
    values of different types with one key (the number 5 and the string "5")
    are found together. *)
Theorem search_single_field g f v (out : buffer) (o : slot) :
  well_used g → f ∈ fieldsToIndex g → to_key v ∉ Object_prototype →
  o ∈ appended (search None (Some [(f, v)]) out g) ↔
  ∃ e, o = Entity e ∧ byId g !! id e = Some e ∧ to_key (attr e f) = to_key v.
Proof.
  intros Hw Hf Hv. pose proof (well_used_indexed g Hw) as Hidx.
  pose proof (reachable_invariant g (well_used_reachable g Hw)) as Hinv.
  rewrite search_appended by (by apply invariant_empty).
  setoid_rewrite selects_single. rewrite sets_only_single.
  rewrite a_set_configured by done.
  destruct Hinv as (Hid & Hdom & _). split.
  - intros (_ & i & Hi & <-). apply (Hidx f Hf) in Hi as (e & He & Hk).
    exists e. rewrite (Hid i e He). split; last done.
    by apply byId_read_entity.
  - intros (e & -> & He & Hk). split; first done.
    exists (id e). split; last by apply byId_read_entity.
    apply (Hidx f Hf). by exists e.
Qed.

(** C5, as the code has it.  In every state an engine can be in, [insert] of
    an entity whose id is in use is not turned down: the entity replaces the
    one stored under the id, and the call ends normally unless one of the
    indexed attribute values of the entity has the name of an inherited
    property for key; then the callback of the field index throws a
    [TypeError], after the replacement. *)
Theorem insert_replaces g e :
  reachable g → is_Some (byId g !! id e) →
  byId (insert e g).2 = <[id e := e]> (byId g) ∧
  ((insert e g).1 = Normal tt ↔
   ∀ f, f ∈ fieldsToIndex g → to_key (attr e f) ∉ Object_prototype) ∧
  ((insert e g).1 = Normal tt ∨ (insert e g).1 = Throw TypeError).
Proof.
  intros Hinv%reachable_invariant [e' He'].
  rewrite insert_run;
    [|by apply invariant_configured|intros f k; by apply invariant_keys].
  rewrite decide_False.
  2:{ intros [Ha Hl]. destruct Hinv as (_ & _ & _ & _ & Harr).
      destruct (Harr Ha) as [Hlen _]. rewrite Hl in He'. congruence. }
  cbv zeta. case_decide as Hall; simpl.
  - split; first done. split; last by left.
    split; [intros _; by apply Forall_forall | done].
  - split; first done. split; last by right.
    split; first done. intros H. destruct Hall. by apply Forall_forall.
Qed.

(** C6, as the code has it.  In a state in which nothing is stored under the
    id of [e], [move e] ends normally, registers [e] in the spatial index and
    touches neither the identity store nor the field index, and [remove e]
    leaves the identity store as it is and ends normally iff the identity
    store does not refuse the id and every configured field has a set under
    the key of [e]'s value for it; otherwise it throws a [TypeError]. *)
Theorem remove_move_absent g e :
  reachable g → byId g !! id e = None →
  ((move e g).1 = Normal tt ∧ byId (move e g).2 = byId g ∧
   fieldIndexes (move e g).2 = fieldIndexes g ∧
   spatialIndex (move e g).2
   = rbush_insert (id e, getSpatialHandle e) (rbush_remove (id e) (spatialIndex g))) ∧
  byId (remove e g).2 = byId g ∧
  ((remove e g).1 = Normal tt ↔
   ¬ refused g e ∧
   ∀ f, f ∈ fieldsToIndex g →
     is_Some (fieldIndexes g !! f ≫= (.!! (to_key (attr e f))))) ∧
  ((remove e g).1 = Normal tt ∨ (remove e g).1 = Throw TypeError).
Proof.
  intros _ Hnone. split; first done.
  rewrite remove_run. case_decide as Hr.
  { simpl. split; first done. split; last by right.
    split; first done. by intros [? _]. }
  cbv zeta. case_decide as Hall; simpl.
  - split; first by apply delete_id. split; last by left.
    split; last done. intros _. split; first done. by apply Forall_forall.
  - split; first by apply delete_id. split; last by right.
    split; first done. intros [_ H]. destruct Hall. by apply Forall_forall.
Qed.

(** C8, as the code has it.  In every state an engine can be in, [move],
    [all] and [nuke] do not throw, and a [search] that throws leaves the
    identity store, the field index and the spatial index as they were.
    [insert] and [remove] leave the spatial index as it was when they throw,
    but not the rest.  An [insert] that throws a [RangeError] changed
    nothing; one that throws a [TypeError] has stored the entity and filed it
    under the configured fields before the one it failed at.  A [remove]
    throws a [TypeError]: at the identity store, which is then unchanged, or
    else at a configured field without a set for the entity's value, having
    deleted the entry of the identity store and purged the fields before that
    one. *)
Theorem throwing_call_effect g c :
  reachable g → throws (perform c g).1 →
  match c with
  | Insert e =>
      spatialIndex (after c g) = spatialIndex g ∧
      fieldsToIndex (after c g) = fieldsToIndex g ∧
      byId_is_array (after c g) = byId_is_array g ∧
      (((perform c g).1 = Throw RangeError ∧ refused g e ∧
        byId (after c g) = byId g ∧ fieldIndexes (after c g) = fieldIndexes g) ∨
       ((perform c g).1 = Throw TypeError ∧
        byId (after c g) = <[id e := e]> (byId g) ∧
        ∃ (l1 : list string) f (l2 : list string),
          fieldsToIndex g = (l1 ++ f :: l2)%list ∧
          to_key (attr e f) ∈ Object_prototype ∧
          Forall (λ f', to_key (attr e f') ∉ Object_prototype) l1 ∧
          ∀ f' (k' i : string),
            i ∈ slice (after c g) f' k' ↔
            i ∈ slice g f' k' ∨ (i = id e ∧ f' ∈ l1 ∧ k' = to_key (attr e f'))))
  | Remove e =>
      (perform c g).1 = Throw TypeError ∧
      spatialIndex (after c g) = spatialIndex g ∧
      fieldsToIndex (after c g) = fieldsToIndex g ∧
      byId_is_array (after c g) = byId_is_array g ∧
      ((refused g e ∧
        byId (after c g) = byId g ∧ fieldIndexes (after c g) = fieldIndexes g) ∨
       (byId (after c g) = delete (id e) (byId g) ∧
        ∃ (l1 : list string) f (l2 : list string),
          fieldsToIndex g = (l1 ++ f :: l2)%list ∧
          fieldIndexes g !! f ≫= (.!! (to_key (attr e f))) = None ∧
          Forall (λ f', is_Some (fieldIndexes g !! f' ≫= (.!! (to_key (attr e f'))))) l1 ∧
          ∀ f' (k' i : string),
            i ∈ slice (after c g) f' k' ↔
            i ∈ slice g f' k' ∧ ¬ (i = id e ∧ f' ∈ l1 ∧ k' = to_key (attr e f'))))
  | Search _ _ _ => same_indexes g (after c g)
  | Move _ | All | Nuke => False
  end.
Proof.
  intros Hinv%reachable_invariant.
  pose proof (invariant_configured g Hinv) as Hconf.
  unfold after. destruct c as [e|e|e|b oq out| |]; simpl.
  - rewrite insert_run; [|done|intros f k; by apply invariant_keys].
    case_decide as Hr.
    { simpl. intros _. do 3 (split; first done). by left. }
    cbv zeta. case_decide as Hall; first done. simpl. intros _.
    do 3 (split; first done). right. split; first done. split; first done.
    destruct (filed_prefix e (fieldsToIndex g)) as [Hfiled|(f & l2 & Hl & Hf)].
    { destruct Hall. apply Forall_forall. intros f Hf. rewrite <- Hfiled in Hf.
      by apply filed_keys in Hf as [_ ?]. }
    exists (filed e (fieldsToIndex g)), f, l2. split; first done. split; first done.
    split.
    + apply Forall_forall. intros f' Hf'. by apply filed_keys in Hf' as [_ ?].
    + intros f' k' i. unfold slice. simpl. apply foldl_index_add_slice.
      apply Forall_forall. intros f'' [Hf'' _]%filed_keys.
      by eapply Forall_forall in Hconf.
  - rewrite remove_run. case_decide as Hr.
    { simpl. intros _. do 4 (split; first done). by left. }
    cbv zeta. case_decide as Hall; first done. simpl. intros _.
    do 4 (split; first done). right. split; first done.
    destruct (purged_prefix e (fieldIndexes g) (fieldsToIndex g))
      as [Hpurged|(f & l2 & Hl & Hf)].
    { destruct Hall. apply Forall_forall. intros f Hf. rewrite <- Hpurged in Hf.
      by apply purged_keys in Hf as [_ ?]. }
    exists (purged e (fieldIndexes g) (fieldsToIndex g)), f, l2.
    split; first done. split; first done. split.
    + apply Forall_forall. intros f' Hf'. by apply purged_keys in Hf' as [_ ?].
    + intros f' k' i. unfold slice. simpl. apply foldl_index_del_slice.
  - done.
  - unfold_bind. destruct (search_state b oq out g) as [Hsame _].
    by destruct (search b oq out g) as [[r|err] g'].
  - done.
  - by rewrite nuke_run.
Qed.

(** * Further properties of the engine *)

(** ** What [insert] and [remove] do to the indexes *)

Lemma insert_effect g e :
  invariant g →
  byId (insert e g).2
  = (if decide (refused g e) then byId g else <[id e := e]> (byId g)) ∧
  fieldsToIndex (insert e g).2 = fieldsToIndex g ∧
  byId_is_array (insert e g).2 = byId_is_array g ∧
  ((insert e g).1 = Normal tt ↔
   ¬ refused g e ∧
   ∀ f, f ∈ fieldsToIndex g → to_key (attr e f) ∉ Object_prototype) ∧
  ((insert e g).1 = Throw RangeError ↔ refused g e) ∧
  ∀ f (k i : string),
    i ∈ slice (insert e g).2 f k ↔
    i ∈ slice g f k ∨
    (¬ refused g e ∧ i = id e ∧ f ∈ filed e (fieldsToIndex g) ∧
     k = to_key (attr e f)).
Proof.
  intros Hinv. pose proof (invariant_configured g Hinv) as Hconf.
  rewrite insert_run; [|done|intros f k; by apply invariant_keys].
  destruct (decide (refused g e)) as [Hr|Hr].
  { simpl. do 3 (split; first done). split; first (split; [done | by intros [? _]]).
    split; first done. intros f k i. split; [by left | by intros [?|[? _]]]. }
  cbv zeta.
  assert (∀ f (k i : string),
    i ∈ index_slice (foldl (index_add e) (fieldIndexes g) (filed e (fieldsToIndex g))) f k ↔
    i ∈ slice g f k ∨
    (¬ refused g e ∧ i = id e ∧ f ∈ filed e (fieldsToIndex g) ∧
     k = to_key (attr e f))) as Hsl.
  { intros f k i. rewrite foldl_index_add_slice.
    - unfold slice. tauto.
    - apply Forall_forall. intros f' [Hf' _]%filed_keys.
      by eapply Forall_forall in Hconf. }
  case_decide as Hall; simpl.
  - do 3 (split; first done). split.
    { split; last done. intros _. split; first done. by apply Forall_forall. }
    split; first done. exact Hsl.
  - do 3 (split; first done). split.
    { split; first done. intros [_ H]. destruct Hall. by apply Forall_forall. }
    split; first done. exact Hsl.
Qed.

Lemma remove_effect g e :
  byId (remove e g).2
  = (if decide (refused g e) then byId g else delete (id e) (byId g)) ∧
  fieldsToIndex (remove e g).2 = fieldsToIndex g ∧
  byId_is_array (remove e g).2 = byId_is_array g ∧
  ((remove e g).1 = Normal tt ↔
   ¬ refused g e ∧
   ∀ f, f ∈ fieldsToIndex g →
     is_Some (fieldIndexes g !! f ≫= (.!! (to_key (attr e f))))) ∧
  (∀ f (k i : string),
     i ∈ slice (remove e g).2 f k ↔
     i ∈ slice g f k ∧
     ¬ (¬ refused g e ∧ i = id e ∧
        f ∈ purged e (fieldIndexes g) (fieldsToIndex g) ∧ k = to_key (attr e f))) ∧
  (∀ f (k : string),
     is_Some (fieldIndexes (remove e g).2 !! f ≫= (.!! k)) ↔
     is_Some (fieldIndexes g !! f ≫= (.!! k))).
Proof.
  rewrite remove_run. destruct (decide (refused g e)) as [Hr|Hr].
  { simpl. do 3 (split; first done). split; first (split; [done | by intros [? _]]).
    split; last done. intros f k i. split; [intros ?; split; [done | by intros [? _]] | by intros [? _]]. }
  cbv zeta.
  assert (∀ f (k i : string),
    i ∈ index_slice (foldl (index_del e) (fieldIndexes g)
                       (purged e (fieldIndexes g) (fieldsToIndex g))) f k ↔
    i ∈ slice g f k ∧
    ¬ (¬ refused g e ∧ i = id e ∧
       f ∈ purged e (fieldIndexes g) (fieldsToIndex g) ∧ k = to_key (attr e f)))
    as Hsl.
  { intros f k i. rewrite foldl_index_del_slice. unfold slice. tauto. }
  case_decide as Hall; simpl.
  - do 3 (split; first done). split.
    { split; last done. intros _. split; first done. by apply Forall_forall. }
    split; first exact Hsl. intros f k. by rewrite foldl_index_del_has_set.
  - do 3 (split; first done). split.
    { split; first done. intros [_ H]. destruct Hall. by apply Forall_forall. }
    split; first exact Hsl. intros f k. by rewrite foldl_index_del_has_set.
Qed.

(** ** A search reads the indexes only *)

Lemma search_ext g g' (b : option bbox) (oq : option query_t) (out out' : buffer) :
  same_indexes g g' → emptySet (pool g') = emptySet (pool g) →
  search b oq out' g' = search b oq out g.
Proof.
  intros (Hb & Ha & Hfi & Hsp & Hfs) He. rewrite !search_phases.
  assert (∀ S F, staged g' S F = staged g S F) as Hst.
  { intros S F. unfold staged, set_pool. by rewrite Hb, Ha, Hfi, Hsp, Hfs, He. }
  assert (∀ b', spatial_hits b' g' = spatial_hits b' g) as Hhits.
  { intros b'. unfold spatial_hits. by rewrite Hsp. }
  destruct b as [b|]; by rewrite ?Hhits, Hst.
Qed.

(** X1.  A search with neither bounds nor query, and a search with only a
    query without criteria, end normally with an empty buffer in any state,
    whatever the indexes hold. *)
Theorem search_without_criteria g (out : buffer) :
  (search None None out g).1 = Normal [] ∧
  (search None (Some []) out g).1 = Normal [].
Proof.
  rewrite !search_phases. simpl. by rewrite elements_empty.
Qed.

(** X2.  What a search yields and the state it leaves do not depend on the
    buffer passed in nor on what an earlier search left in the scratch pool:
    after any search, a search does what it would have done before it.  In
    particular a search repeated at once yields the same buffer. *)
Theorem search_after_search g (b b' : option bbox) (oq oq' : option query_t)
    (out out' out'' : buffer) :
  search b oq out (search b' oq' out' g).2 = search b oq out'' g.
Proof.
  destruct (search_state b' oq' out' g) as [Hsame He]. by apply search_ext.
Qed.

(** ** [nuke], [all] and the identity store *)

Lemma all_run g : all g = (Normal ((map_to_list (byId g)).*2), g).
Proof. done. Qed.

Lemma elem_of_values (m : gmap string entity) e :
  e ∈ (map_to_list m).*2 ↔ ∃ i, m !! i = Some e.
Proof.
  rewrite list_elem_of_fmap. split.
  - intros ([i e'] & -> & Hin%elem_of_map_to_list). by exists i.
  - intros [i Hi]. exists (i, e). split; first done. by apply elem_of_map_to_list.
Qed.

Lemma empty_index_search g (b : option bbox) q (out : buffer) :
  invariant g → (∀ f (k : string), slice g f k = ∅) →
  appended (search b (Some q) out g) = [].
Proof.
  intros Hinv Hempty. apply elem_of_nil_inv. intros o.
  rewrite search_appended by (by apply invariant_empty).
  intros (_ & i & (_ & _ & Hq & Hall) & _).
  destruct q as [|[f v] q]; first done.
  specialize (Hall f). rewrite Hempty in Hall. apply (not_elem_of_empty (C:=gset string) i).
  apply Hall. by left.
Qed.

Lemma foldl_fresh_lookup (l : list string) f :
  foldl (λ fi f, <[f := ∅]> fi) (∅ : gmap string (gmap string (gset string))) l !! f
  = if decide (f ∈ l) then Some ∅ else None.
Proof.
  assert (∀ fi : gmap string (gmap string (gset string)),
            foldl (λ fi f, <[f := ∅]> fi) fi l !! f
            = if decide (f ∈ l) then Some ∅ else fi !! f) as H.
  { induction l as [|f0 l IH]; intros fi; cbn [foldl].
    - by rewrite decide_False by apply not_elem_of_nil.
    - rewrite IH. destruct (decide (f ∈ l)) as [Hin|Hin].
      + rewrite decide_True; [done | by right].
      + rewrite lookup_insert. destruct (decide (f0 = f)) as [->|Hne].
        * rewrite decide_True; [done | by left].
        * rewrite decide_False; first done.
          intros [?|?]%elem_of_cons; [by subst | done]. }
  rewrite H. by rewrite lookup_empty.
Qed.

(** X3.  [nuke] never throws and brings the indexes back to those of a new
    engine with the same configuration: the identity store is empty - and an
    array from now on -, every configured field has an empty sub-index and
    no other field has one, the spatial index is cleared; [all()] is then
    empty.  The scratch pool is left as it is. *)
Theorem nuke_resets g :
  (nuke g).1 = Normal tt ∧
  byId (nuke g).2 = ∅ ∧
  byId_is_array (nuke g).2 = true ∧
  (∀ f, fieldIndexes (nuke g).2 !! f
        = if decide (f ∈ fieldsToIndex g) then Some ∅ else None) ∧
  (∀ fs : configuration, names fs = fieldsToIndex g →
     fieldIndexes (nuke g).2 = fieldIndexes (constructor fs)) ∧
  fieldsToIndex (nuke g).2 = fieldsToIndex g ∧
  spatialIndex (nuke g).2 = rbush_clear (spatialIndex g) ∧
  pool (nuke g).2 = pool g ∧
  (all (nuke g).2).1 = Normal [].
Proof.
  rewrite nuke_run, all_run. simpl. rewrite map_to_list_empty.
  do 3 (split; first done). split; first (intros f; apply foldl_fresh_lookup).
  split; last done. by intros fs ->.
Qed.

(** X4.  On a new engine, and after a [nuke] in any state an engine can be
    in, a search with a query appends nothing, with or without bounds. *)
Theorem search_of_empty_engine (fs : configuration) (cs : list call)
    (b : option bbox) q (out : buffer) :
  appended (search b (Some q) out (constructor fs)) = [] ∧
  appended (search b (Some q) out (nuke (run cs (constructor fs))).2) = [].
Proof.
  split.
  - apply empty_index_search; first apply invariant_constructor.
    intros f k. unfold slice. simpl. apply index_slice_fresh.
  - apply empty_index_search.
    + apply (invariant_after Nuke), reachable_invariant, reachable_run,
        reachable_constructor.
    + intros f k. rewrite nuke_run. unfold slice. simpl. apply index_slice_fresh.
Qed.

(** X5.  In every state an engine can be in, [all()] changes nothing and
    lists exactly the entities of the identity store, one for each id in
    use. *)
Theorem all_lists_stored g :
  reachable g →
  ∃ l, all g = (Normal l, g) ∧
       (∀ e, e ∈ l ↔ byId g !! id e = Some e) ∧
       NoDup (id <$> l) ∧ length l = size (byId g).
Proof.
  intros (Hid & _)%reachable_invariant. exists ((map_to_list (byId g)).*2).
  split; first done. split; [|split].
  - intros e. rewrite elem_of_values. split.
    + intros [i Hi]. by rewrite (Hid i e Hi).
    + intros He. by exists (id e).
  - replace (id <$> (map_to_list (byId g)).*2) with ((map_to_list (byId g)).*1);
      first apply NoDup_fst_map_to_list.
    rewrite <- list_fmap_compose. apply list_fmap_ext.
    intros j [i e] Hj. simpl. symmetry. apply Hid.
    apply elem_of_map_to_list. by eapply list_elem_of_lookup_2.
  - by rewrite length_fmap, length_map_to_list.
Qed.



(** X8.  In every state an engine can be in, an entity whose [insert] has
    just ended normally is found by every query over configured fields whose
    values have the property keys of the entity's attribute values. *)
Theorem inserted_is_found g e q (out : buffer) :
  reachable g → (insert e g).1 = Normal tt → q ≠ [] →
  (∀ f, f ∈ keys q →
     f ∈ fieldsToIndex g ∧ to_key (query_get q f) = to_key (attr e f)) →
  Entity e ∈ appended (search None (Some q) out (insert e g).2).
Proof.
  intros Hr Hn Hq Hmatch.
  pose proof (reachable_invariant _ (reachable_after (Insert e) g Hr)) as Hinv'.
  change (after (Insert e) g) with (insert e g).2 in Hinv'.
  destruct (insert_effect g e (reachable_invariant g Hr))
    as (Hb & Hfs & _ & Hnormal & _ & Hsl).
  apply Hnormal in Hn as [Href Hkeys].
  rewrite search_appended_entity by done. split; [|split].
  - simpl. apply Forall_forall. intros f Hf. destruct (Hmatch f Hf) as [Hconf Hk].
    apply a_set_configured; [done | by rewrite Hfs |]. rewrite Hk. by apply Hkeys.
  - split; first (right; eauto). split; first done. split; first done.
    intros f Hf. destruct (Hmatch f Hf) as [Hconf ->]. apply Hsl. right.
    split; first done. split; first done. split; last done.
    rewrite filed_all; [done | by apply Forall_forall].
  - rewrite Hb, decide_False by done. apply lookup_insert_eq.
Qed.

(** ** Frames of [insert] and [remove] *)

(** X9.  In every state an engine can be in, [insert e] - also when it
    throws - takes nothing out of the field index and leaves the other ids
    alone: an id filed under a key stays there, an id other than that of [e]
    is filed and stored as before, and the id of [e] is filed nowhere but
    where it was and under the key of [e]'s value for a configured field.
    When the call ends normally, the id is filed under that key for every
    configured field.  (An id inserted twice with different values thus stays
    filed under the old key.) *)
Theorem insert_only_adds g e f (k i : string) :
  reachable g →
  (i ∈ slice g f k → i ∈ slice (insert e g).2 f k) ∧
  (i ≠ id e →
     (i ∈ slice (insert e g).2 f k ↔ i ∈ slice g f k) ∧
     byId (insert e g).2 !! i = byId g !! i) ∧
  (id e ∈ slice (insert e g).2 f k →
   id e ∈ slice g f k ∨ (f ∈ fieldsToIndex g ∧ k = to_key (attr e f))) ∧
  ((insert e g).1 = Normal tt → f ∈ fieldsToIndex g →
   id e ∈ slice (insert e g).2 f (to_key (attr e f))).
Proof.
  intros Hinv%reachable_invariant.
  destruct (insert_effect g e Hinv) as (Hb & _ & _ & Hnormal & _ & Hsl).
  split; [|split; [|split]].
  - intros Hi. apply Hsl. by left.
  - intros Hne. split.
    + rewrite Hsl. split; [intros [?|(_ & ? & _)]; done | by left].
    + rewrite Hb. case_decide; first done. by apply lookup_insert_ne.
  - rewrite Hsl. intros [?|(_ & _ & [? _]%filed_keys & ?)]; eauto.
  - intros [Href Hkeys]%Hnormal Hf. apply Hsl. right.
    split; first done. split; first done. split; last done.
    rewrite filed_all; [done | by apply Forall_forall].
Qed.

(** X10.  In every state an engine can be in, [remove e] - also when it
    throws - puts nothing into the field index and leaves the other ids
    alone; it never drops a set from a sub-index, an emptied set stays under
    its key; and when it ends normally the id of [e] is no longer filed under
    the key of [e]'s value for any configured field. *)
Theorem remove_only_removes g e f (k i : string) :
  reachable g →
  (i ∈ slice (remove e g).2 f k → i ∈ slice g f k) ∧
  (i ≠ id e →
     (i ∈ slice (remove e g).2 f k ↔ i ∈ slice g f k) ∧
     byId (remove e g).2 !! i = byId g !! i) ∧
  (is_Some (fieldIndexes (remove e g).2 !! f ≫= (.!! k)) ↔
   is_Some (fieldIndexes g !! f ≫= (.!! k))) ∧
  ((remove e g).1 = Normal tt → f ∈ fieldsToIndex g →
   id e ∉ slice (remove e g).2 f (to_key (attr e f))).
Proof.
  intros _.
  destruct (remove_effect g e) as (Hb & _ & _ & Hnormal & Hsl & Hset).
  split; [|split; [|split]].
  - rewrite Hsl. by intros [? _].
  - intros Hne. split.
    + rewrite Hsl. split; [by intros [? _] | intros ?; split; [done | by intros (_ & ? & _)]].
    + rewrite Hb. case_decide; first done. by apply lookup_delete_ne.
  - apply Hset.
  - intros [Href Hall]%Hnormal Hf. rewrite Hsl. intros [_ Hnot]. apply Hnot.
    split; first done. split; first done. split; last done.
    rewrite purged_all; [done | by apply Forall_forall].
Qed.

(** ** What every state of an engine satisfies *)

Lemma fieldsToIndex_after c g :
  invariant g → fieldsToIndex (after c g) = fieldsToIndex g.
Proof.
  intros Hinv. unfold after. destruct c as [e|e|e|b oq out| |]; simpl.
  - by destruct (insert_effect g e Hinv) as (_ & ? & _).
  - by destruct (remove_effect g e) as (_ & ? & _).
  - done.
  - unfold_bind. destruct (search_state b oq out g) as [(_ & _ & _ & _ & Hfs) _].
    by destruct (search b oq out g) as [[r|err] g'].
  - done.
  - by rewrite nuke_run.
Qed.

Lemma fieldsToIndex_run (cs : list call) (fs : configuration) :
  fieldsToIndex (run cs (constructor fs)) = names fs.
Proof.
  induction cs as [|c cs IH] using rev_ind; first done.
  rewrite run_snoc, fieldsToIndex_after; first done.
  apply reachable_invariant, reachable_run, reachable_constructor.
Qed.

(** X11.  Whatever calls are made on an engine constructed for the fields
    [fs], failed ones included: the configuration stays [fs], the field index
    has a sub-index for exactly the fields of [fs], and every entity of the
    identity store is stored under its own id. *)
Theorem configuration_is_fixed (fs : configuration) (cs : list call) :
  fieldsToIndex (run cs (constructor fs)) = names fs ∧
  (∀ f, is_Some (fieldIndexes (run cs (constructor fs)) !! f) ↔ f ∈ names fs) ∧
  (∀ i e, byId (run cs (constructor fs)) !! i = Some e → id e = i).
Proof.
  pose proof (reachable_invariant _ (reachable_run cs _ (reachable_constructor fs)))
    as (Hid & Hdom & _).
  split; first apply fieldsToIndex_run. split; last done.
  intros f. by rewrite Hdom, fieldsToIndex_run.
Qed.

(** X12.  The set [pool.emptySet], which the code takes for a set that is
    always empty, is: no sequence of calls puts an id into it, so a field
    result that refers to it is an empty result. *)
Theorem emptySet_is_always_empty (fs : configuration) (cs : list call) :
  emptySet (pool (run cs (constructor fs))) = ∅ ∧
  deref (run cs (constructor fs)) PoolEmptySet = Some ∅.
Proof.
  pose proof (reachable_invariant _ (reachable_run cs _ (reachable_constructor fs)))
    as (_ & _ & He & _).
  simpl. by rewrite He.
Qed.

(** ** An engine used as its methods require *)

(** X13.  In every state of an engine used as its methods require, the field
    index is exact: an id filed under a key of a configured field is the id
    of a stored entity whose attribute value has that key, so no id is filed
    under two keys of one field. *)
Theorem one_key_per_field g f (k k' i : string) :
  well_used g → f ∈ fieldsToIndex g → i ∈ slice g f k →
  (∃ e, byId g !! i = Some e ∧ id e = i ∧ to_key (attr e f) = k) ∧
  (i ∈ slice g f k' → k' = k).
Proof.
  intros Hw Hf Hi. pose proof (well_used_indexed g Hw) as Hidx.
  pose proof (reachable_invariant g (well_used_reachable g Hw)) as (Hid & _).
  apply (Hidx f Hf) in Hi as (e & He & Hk). split.
  - exists e. by rewrite (Hid i e He).
  - intros (e' & He' & Hk')%(Hidx f Hf). congruence.
Qed.

(** X14.  On an engine used as its methods require, a call made as the
    methods require ends normally, unless it is a search with a criterion on
    a field that is not configured or for a value whose key is the name of an
    inherited property: no other error can occur, the errors of [insert] and
    [remove] included. *)
Theorem only_search_throws g c :
  well_used g → respects g c →
  (perform c g).1 = Normal tt ∨
  ∃ (b : option bbox) q (out : buffer) f,
    c = Search b (Some q) out ∧ f ∈ keys q ∧
    (f ∉ fieldsToIndex g ∨ to_key (query_get q f) ∈ Object_prototype).
Proof.
  intros Hw Hc. pose proof (well_used_indexed g Hw) as Hidx.
  pose proof (reachable_invariant g (well_used_reachable g Hw)) as Hinv.
  destruct c as [e|e|e|b oq out| |]; simpl in *.
  - left. by rewrite respected_insert_run.
  - left. by rewrite respected_remove_run.
  - by left.
  - unfold_bind. destruct (sets_only_dec g oq) as [Hk|Hk].
    + left.
      by destruct (search_sets b oq out g (invariant_empty g Hinv) Hk)
        as (R & g' & -> & _).
    + right. destruct oq as [q|]; last by destruct Hk.
      simpl in Hk. apply not_Forall_Exists in Hk; last (intros f; apply a_set_dec).
      apply Exists_exists in Hk as (f & Hf & Hns).
      exists b, q, out, f. split; first done. split; first done.
      destruct (decide (f ∈ fieldsToIndex g)) as [Hconf|Hconf]; last by left.
      right. unfold compose in Hns. cbv beta in Hns.
      rewrite a_set_configured in Hns by done.
      destruct (decide (to_key (query_get q f) ∈ Object_prototype)); [done | by destruct Hns].
  - by left.
  - left. by rewrite nuke_run.
Qed.

(** X15.  On an engine used as its methods require, a search by query alone
    never appends [undefined]: every slot of the buffer holds a stored
    entity. *)
Theorem query_results_are_entities g q (out : buffer) :
  well_used g →
  (Undefined ∉ appended (search None (Some q) out g)) ∧
  ∀ o : slot, o ∈ appended (search None (Some q) out g) →
    ∃ e, o = Entity e ∧ byId g !! id e = Some e.
Proof.
  intros Hw. pose proof (well_used_indexed g Hw) as Hidx.
  pose proof (reachable_invariant g (well_used_reachable g Hw)) as Hinv.
  assert (∀ o : slot, o ∈ appended (search None (Some q) out g) →
            ∃ e, o = Entity e ∧ byId g !! id e = Some e) as H.
  { intros o. rewrite search_appended by (by apply invariant_empty).
    intros (Hk & i & (_ & _ & Hq & Hall) & <-).
    destruct q as [|[f v] q]; first done.
    assert (f ∈ keys ((f, v) :: q)) as Hf by left.
    apply Hall in Hf.
    assert (f ∈ fieldsToIndex g) as Hknown.
    { destruct Hinv as (_ & Hdom & _). apply Hdom.
      apply elem_of_index_slice_is_Some in Hf as [s Hs].
      destruct (fieldIndexes g !! f); [by eexists | done]. }
    apply (Hidx f Hknown) in Hf as (e & He & _). exists e.
    destruct Hinv as (Hid & _). rewrite (Hid i e He). split; last done.
    by apply byId_read_entity. }
  split; last done. intros (e & [=] & _)%H.
Qed.


(** ** Results taken by reference *)

(** X17.  A search by bounds alone, and a search for one configured field,
    copy no id: the accumulator [pool.ids] stays empty and the result is a
    reference - to the spatial result of the pool in the first case; in the
    second to the very set of the field index filed under the key of the
    value, or, when the index has none, to the inherited property of that
    name, which is no set, or else to the empty set of the pool. *)
Theorem single_part_by_reference g b f v (out : buffer) :
  is_Some (fieldIndexes g !! f) →
  (resultReference (pool (search (Some b) None out g).2) = Some PoolSpatial ∧
   ids (pool (search (Some b) None out g).2) = ∅ ∧
   spatial (pool (search (Some b) None out g).2) = spatial_hits b g) ∧
  (resultReference (pool (search None (Some [(f, v)]) out g).2)
   = Some (if decide (is_Some (fieldIndexes g !! f ≫= (.!! (to_key v))))
           then IndexSlice f (to_key v)
           else if decide (to_key v ∈ Object_prototype) then NotASet
           else PoolEmptySet) ∧
   ids (pool (search None (Some [(f, v)]) out g).2) = ∅).
Proof.
  intros Hf. split.
  - rewrite search_phases. simpl.
    split; first done. split; first done. apply union_empty_r_L.
  - rewrite search_phases.
    change (_fieldSearch [(f, v)])
      with (forEach (keys [(f, v)]) (fieldSearch_body [(f, v)])).
    destruct Hf as [fi Hfi].
    assert (∃ r, field_result g f v = Normal r ∧
              r = (if decide (is_Some (fieldIndexes g !! f ≫= (.!! (to_key v))))
                   then IndexSlice f (to_key v)
                   else if decide (to_key v ∈ Object_prototype) then NotASet
                   else PoolEmptySet)) as (r & Hr & Hr').
    { unfold field_result. rewrite Hfi. simpl.
      destruct (fi !! to_key v) as [s|] eqn:Hs.
      - eexists. split; first done. rewrite decide_True; [done | by eexists].
      - rewrite (decide_False (P := is_Some None)) by (by intros [? ?]).
        case_decide; by eexists. }
    rewrite fieldSearch_loop_run.
    2:{ constructor; last done. rewrite query_get_single. by exists r. }
    unfold keys. cbn [fmap list_fmap fst app]. unfold field_ref.
    rewrite query_get_single, Hr, <- Hr'. rewrite seq_run.
    clear Hr Hr'. by destruct r.
Qed.

(** ** How [insert] and [remove] compose *)

(** X18.  On an engine used as its methods require, inserting an entity as
    [insert] requires and removing it again ends normally both times and
    leaves no trace of the id: the identity store is as it was and so is
    every set of ids of the field index. *)
Theorem insert_remove_round_trip g e :
  well_used g → respects g (Insert e) →
  (insert e g).1 = Normal tt ∧
  (remove e (insert e g).2).1 = Normal tt ∧
  byId (remove e (insert e g).2).2 = byId g ∧
  ∀ f (k : string), slice (remove e (insert e g).2).2 f k = slice g f k.
Proof.
  intros Hw Hc. pose proof (well_used_indexed g Hw) as Hidx.
  pose proof (reachable_invariant g (well_used_reachable g Hw)) as Hinv.
  assert (well_used (insert e g).2) as Hw1 by (by apply (well_used_call g (Insert e))).
  pose proof (well_used_indexed _ Hw1) as Hidx1.
  pose proof (reachable_invariant _ (well_used_reachable _ Hw1)) as Hinv1.
  assert (respects (insert e g).2 (Remove e)) as Hc1.
  { exists e. split; last done.
    rewrite respected_insert_run by done. simpl. apply lookup_insert_eq. }
  rewrite (respected_remove_run (insert e g).2) by done.
  rewrite respected_insert_run by done. simpl.
  destruct Hc as (Hnone & _ & _).
  split; first done. split; first done. split.
  - by apply delete_insert_id.
  - intros f k. apply set_eq. intros i. unfold slice. simpl.
    rewrite foldl_index_del_slice, foldl_index_add_slice
      by (by apply invariant_configured).
    fold (slice g f k). split.
    + intros [[Hi|Hi] Hnot]; first done. by destruct Hnot.
    + intros Hi. split; first by left. intros (-> & Hf & _).
      apply (Hidx f Hf) in Hi as (e' & He' & _). congruence.
Qed.

(** X19.  On an engine used as its methods require, an entity whose
    attribute values have changed - to values whose keys are no names of
    inherited properties - is indexed anew by removing it as it was stored
    and inserting it as it is: both calls end normally, the entity as it is
    is stored, and its id is filed under the key of its present value, and
    under no other, for every configured field. *)
Theorem remove_insert_reindexes g e0 e f (k : string) :
  well_used g → byId g !! id e0 = Some e0 → id e = id e0 →
  (∀ f', f' ∈ fieldsToIndex g → to_key (attr e f') ∉ Object_prototype) →
  f ∈ fieldsToIndex g →
  (remove e0 g).1 = Normal tt ∧
  (insert e (remove e0 g).2).1 = Normal tt ∧
  byId (insert e (remove e0 g).2).2 !! id e = Some e ∧
  (id e ∈ slice (insert e (remove e0 g).2).2 f k ↔ k = to_key (attr e f)).
Proof.
  intros Hw He0 Hid Hkeys Hf.
  assert (respects g (Remove e0)) as Hc0 by (by exists e0).
  assert (well_used (remove e0 g).2) as Hw1 by (by apply (well_used_call g (Remove e0))).
  pose proof (reachable_invariant g (well_used_reachable g Hw)) as Hinv.
  pose proof (reachable_invariant _ (well_used_reachable _ Hw1)) as Hinv1.
  pose proof (well_used_indexed g Hw) as Hidx.
  assert (respects (remove e0 g).2 (Insert e)) as Hc1.
  { rewrite respected_remove_run by done. simpl. split; [|split].
    - rewrite Hid. apply lookup_delete_eq.
    - intros [Ha Hl]. simpl in Ha. destruct Hinv as (_ & _ & _ & _ & Harr).
      destruct (Harr Ha) as [Hlen _]. rewrite Hid in Hl. rewrite Hl in He0. congruence.
    - done. }
  assert (well_used (insert e (remove e0 g).2).2) as Hw2
    by (by apply (well_used_call _ (Insert e))).
  pose proof (well_used_indexed _ Hw2 f) as Hidx2.
  revert Hidx2. rewrite (respected_insert_run (remove e0 g).2) by done.
  rewrite respected_remove_run by done. simpl. intros Hidx2.
  split; first done. split; first done.
  split; first apply lookup_insert_eq.
  unfold slice in Hidx2. simpl in Hidx2. unfold slice. simpl.
  rewrite (Hidx2 Hf). split.
  - intros (e' & He' & <-). rewrite lookup_insert_eq in He'. congruence.
  - intros ->. exists e. split; last done. apply lookup_insert_eq.
Qed.

(** X20.  In every state an engine can be in, inserting two entities with
    different ids in one order or the other gives the same identity store and
    the same sets of ids in the field index. *)
Theorem inserts_commute g e1 e2 f (k : string) :
  reachable g → id e1 ≠ id e2 →
  byId (insert e2 (insert e1 g).2).2 = byId (insert e1 (insert e2 g).2).2 ∧
  slice (insert e2 (insert e1 g).2).2 f k = slice (insert e1 (insert e2 g).2).2 f k.
Proof.
  intros Hr Hne. pose proof (reachable_invariant g Hr) as Hinv.
  pose proof (reachable_invariant _ (reachable_after (Insert e1) g Hr)) as Hinv1.
  pose proof (reachable_invariant _ (reachable_after (Insert e2) g Hr)) as Hinv2.
  change (after (Insert e1) g) with (insert e1 g).2 in Hinv1.
  change (after (Insert e2) g) with (insert e2 g).2 in Hinv2.
  destruct (insert_effect g e1 Hinv) as (Hb1 & Hfs1 & Ha1 & _ & _ & Hsl1).
  destruct (insert_effect g e2 Hinv) as (Hb2 & Hfs2 & Ha2 & _ & _ & Hsl2).
  destruct (insert_effect _ e2 Hinv1) as (Hb12 & _ & _ & _ & _ & Hsl12).
  destruct (insert_effect _ e1 Hinv2) as (Hb21 & _ & _ & _ & _ & Hsl21).
  assert (refused (insert e1 g).2 e2 ↔ refused g e2) as Hr12
    by (unfold refused; by rewrite Ha1).
  assert (refused (insert e2 g).2 e1 ↔ refused g e1) as Hr21
    by (unfold refused; by rewrite Ha2).
  split.
  - rewrite Hb12, Hb21, Hb1, Hb2.
    destruct (decide (refused g e1)), (decide (refused g e2));
      repeat case_decide; try tauto; try done.
    by apply insert_insert_ne.
  - apply set_eq. intros i. rewrite Hsl12, Hsl21, Hsl1, Hsl2, Hfs1, Hfs2, Hr12, Hr21.
    tauto.
Qed.

(** ** The slots of single-part searches *)

Lemma search_slots g (b : option bbox) (oq : option query_t) (out : buffer)
    (R : gset string) :
  invariant g → sets_only g oq → (∀ i, i ∈ R ↔ selects g b oq i) →
  (search b oq out g).1 = Normal (byId_read g <$> elements R).
Proof.
  intros Hinv Hk HR.
  destruct (search_sets b oq out g (invariant_empty g Hinv) Hk)
    as (R' & g' & -> & _ & _ & HR'). simpl.
  replace R' with R; first done. apply set_eq. intros i. by rewrite HR, HR'.
Qed.

(** X21.  In every state an engine can be in, a search by bounds alone ends
    normally and appends [this.byId[id]] once for each id among the entries
    the spatial index yields for the bounds: as many slots as there are
    different ids, however many entries share one. *)
Theorem search_bounds_slots g b (out : buffer) :
  reachable g →
  (search (Some b) None out g).1
  = Normal (byId_read g <$> elements (spatial_hits b g)) ∧
  (∀ o, o ∈ appended (search (Some b) None out g) ↔
        ∃ x, x ∈ rbush_search b (spatialIndex g) ∧ byId_read g x.1 = o) ∧
  length (appended (search (Some b) None out g)) = size (spatial_hits b g).
Proof.
  intros Hinv%reachable_invariant.
  assert ((search (Some b) None out g).1
          = Normal (byId_read g <$> elements (spatial_hits b g))) as Hs.
  { apply search_slots; [done..|]. intros i. unfold selects. simpl.
    split; [intros ?; split; [left; eauto | done] | by intros (_ & ? & _)]. }
  unfold appended. rewrite Hs. split; [done|split].
  - intros o. rewrite list_elem_of_fmap. unfold spatial_hits. split.
    + intros (i & -> & Hi%elem_of_elements%elem_of_list_to_set).
      apply list_elem_of_fmap in Hi as (x & -> & Hx). by exists x.
    + intros (x & Hx & <-). exists x.1. split; first done.
      apply elem_of_elements, elem_of_list_to_set, list_elem_of_fmap. by exists x.
  - rewrite length_fmap. done.
Qed.

(** X22.  In every state an engine can be in - states with ids that are
    filed but no longer stored included - a search for one configured field
    [{f: v}] ends normally and appends [this.byId[id]] once for each id filed
    under the key of [v] in the sub-index of [f], unless the key of [v] is
    the name of an inherited property: then the search throws a
    [TypeError]. *)
Theorem search_field_slots g f v (out : buffer) :
  reachable g → f ∈ fieldsToIndex g →
  (to_key v ∉ Object_prototype →
   (search None (Some [(f, v)]) out g).1
   = Normal (byId_read g <$> elements (slice g f (to_key v))) ∧
   length (appended (search None (Some [(f, v)]) out g))
   = size (slice g f (to_key v))) ∧
  (to_key v ∈ Object_prototype →
   (search None (Some [(f, v)]) out g).1 = Throw TypeError).
Proof.
  intros Hinv%reachable_invariant Hf. split.
  - intros Hv.
    assert ((search None (Some [(f, v)]) out g).1
            = Normal (byId_read g <$> elements (slice g f (to_key v)))) as Hs.
    { apply search_slots; [done| |].
      - apply sets_only_single. by apply a_set_configured.
      - intros i. by rewrite selects_single. }
    unfold appended. rewrite Hs. split; first done. by rewrite length_fmap.
  - intros Hv. rewrite search_phases.
    change (_fieldSearch [(f, v)])
      with (forEach (keys [(f, v)]) (fieldSearch_body [(f, v)])).
    assert (field_result g f v = Normal NotASet) as Hr.
    { pose proof Hinv as (_ & Hdom & _). apply Hdom in Hf as [fi Hfi].
      unfold field_result. rewrite Hfi.
      destruct (fi !! to_key v) as [s|] eqn:Hs.
      - exfalso. apply (invariant_keys g f (to_key v)); [done| |done].
        rewrite Hfi. simpl. by eexists.
      - by rewrite decide_True. }
    rewrite fieldSearch_loop_run.
    2:{ constructor; last done. rewrite query_get_single. by eexists. }
    unfold keys. cbn [fmap list_fmap fst app]. unfold field_ref.
    by rewrite query_get_single, Hr.
Qed.

(** X23.  In every state an engine can be in, when an entity is inserted
    under an id that is filed under a key of a configured field - the id of a
    stored entity, say - a search for a value with that key appends the
    inserted entity, whatever its own value for the field: [insert] does not
    take the id out of the sets it was in. *)
Theorem duplicate_insert_is_found_by_old_key g e f v (out : buffer) :
  reachable g → f ∈ fieldsToIndex g → id e ∈ slice g f (to_key v) →
  Entity e ∈ appended (search None (Some [(f, v)]) out (insert e g).2).
Proof.
  intros Hr Hf Hfiled.
  pose proof (reachable_invariant _ (reachable_after (Insert e) g Hr)) as Hinv'.
  change (after (Insert e) g) with (insert e g).2 in Hinv'.
  pose proof (reachable_invariant g Hr) as Hinv.
  destruct (insert_effect g e Hinv) as (Hb & Hfs & _ & _ & _ & Hsl).
  assert (¬ refused g e) as Href.
  { intros [Ha Hl]. destruct Hinv as (_ & _ & _ & _ & Harr).
    destruct (Harr Ha) as [_ Hnot]. rewrite Hl in Hfiled. by eapply Hnot. }
  rewrite search_appended_entity by done. split; [|split].
  - apply sets_only_single. apply a_set_configured; [done | by rewrite Hfs |].
    apply (invariant_keys g f); first done.
    by apply (elem_of_index_slice_is_Some _ _ _ (id e)).
  - apply selects_single, Hsl. by left.
  - rewrite Hb, decide_False by done. apply lookup_insert_eq.
Qed.

(** ** An identity store that is an array *)

Lemma byId_is_array_after c g :
  invariant g → byId_is_array g = true → byId_is_array (after c g) = true.
Proof.
  intros Hinv Ha. unfold after. destruct c as [e|e|e|b oq out| |]; simpl.
  - destruct (insert_effect g e Hinv) as (_ & _ & -> & _). done.
  - destruct (remove_effect g e) as (_ & _ & -> & _). done.
  - done.
  - unfold_bind. destruct (search_state b oq out g) as [(_ & Ha' & _) _].
    destruct (search b oq out g) as [[r|err] g']; simpl in *; congruence.
  - done.
  - by rewrite nuke_run.
Qed.

(** X24.  In every state an engine can be in, [insert] throws a
    [RangeError] exactly when the identity store is an array - which it is
    once [nuke] has been called - and the id of the entity is [length].  Once
    an array, the identity store stays one whatever is called, and holds
    nothing under [length]; [insert] of an entity with that id throws a
    [RangeError] and [remove] of it a [TypeError], and neither changes
    anything. *)
Theorem array_refuses_length g e (cs : list call) :
  reachable g →
  ((insert e g).1 = Throw RangeError ↔ byId_is_array g = true ∧ id e = "length") ∧
  (byId_is_array g = true →
   byId_is_array (run cs g) = true ∧
   byId g !! "length" = None ∧
   (id e = "length" →
    insert e g = (Throw RangeError, g) ∧ remove e g = (Throw TypeError, g))).
Proof.
  intros Hr. pose proof (reachable_invariant g Hr) as Hinv. split.
  { by destruct (insert_effect g e Hinv) as (_ & _ & _ & _ & -> & _). }
  intros Ha. split; [|split].
  - induction cs as [|c cs IH] using rev_ind; first done.
    rewrite run_snoc. apply byId_is_array_after; last done.
    by apply reachable_invariant, reachable_run.
  - destruct Hinv as (_ & _ & _ & _ & Harr). by apply Harr.
  - intros Hl. assert (refused g e) as Href by done.
    rewrite insert_run;
      [|by apply invariant_configured|intros f k; by apply invariant_keys].
    rewrite remove_run. by rewrite !decide_True.
Qed.

(** ** A criterion on a field that is not configured *)

(** X25.  In every state an engine can be in, a search for one criterion on
    a field that is not configured but has the name of an inherited property
    does what the read of [value] from that property decides: when the read
    throws, so does the search; when it gives a falsy value, the criterion
    stands for the empty set and the search ends normally with nothing
    found; and when it gives a truthy value, which is no set, the search
    appends nothing, and throws a [TypeError] when there are no bounds. *)
Theorem search_inherited_field g (b : option bbox) f v (out : buffer) :
  reachable g → f ∉ fieldsToIndex g → f ∈ Object_prototype →
  match builtin_property f (to_key v) with
  | Raises => (search b (Some [(f, v)]) out g).1 = Throw TypeError
  | Falsy => (search b (Some [(f, v)]) out g).1 = Normal []
  | Truthy =>
      appended (search b (Some [(f, v)]) out g) = [] ∧
      (search None (Some [(f, v)]) out g).1 = Throw TypeError
  end.
Proof.
  intros Hinv%reachable_invariant Hf Hname.
  assert (fieldIndexes g !! f = None) as Hnone.
  { destruct Hinv as (_ & Hdom & _). destruct (fieldIndexes g !! f) eqn:Hfi; last done.
    destruct Hf. apply Hdom. by eexists. }
  assert (field_result g f v
          = match builtin_property f (to_key v) with
            | Truthy => Normal NotASet
            | Falsy => Normal PoolEmptySet
            | Raises => Throw TypeError
            end) as Hr.
  { unfold field_result. rewrite Hnone. by rewrite decide_True. }
  revert Hr. destruct (builtin_property f (to_key v)); intros Hr.
  - assert (sets_only g (Some [(f, v)])) as Hk.
    { apply sets_only_single. by exists PoolEmptySet. }
    destruct (search_sets b (Some [(f, v)]) out g (invariant_empty g Hinv) Hk)
      as (R & g' & -> & _ & _ & HR).
    simpl. replace R with (∅ : gset string); first by rewrite elements_empty.
    symmetry. apply elem_of_equiv_empty_L. intros i [_ [_ Hq]]%HR.
    destruct Hq as [_ Hq]. specialize (Hq f (list_elem_of_here _ _)).
    unfold slice, index_slice in Hq. rewrite Hnone in Hq. set_solver.
  - assert (∀ b', (search b' (Some [(f, v)]) out g).1 = Throw TypeError ∨
                  (search b' (Some [(f, v)]) out g).1 = Normal []) as Hnot.
    { intros b'. apply search_not_sets. rewrite sets_only_single.
      intros (r & Hr' & Hns). congruence. }
    split.
    + unfold appended. by destruct (Hnot b) as [-> | ->].
    + rewrite search_phases.
      change (_fieldSearch [(f, v)])
        with (forEach (keys [(f, v)]) (fieldSearch_body [(f, v)])).
      rewrite fieldSearch_loop_run.
      2:{ constructor; last done. rewrite query_get_single. by eexists. }
      unfold keys. cbn [fmap list_fmap fst app]. unfold field_ref.
      by rewrite query_get_single, Hr.
  - rewrite search_phases.
    change (_fieldSearch [(f, v)])
      with (forEach (keys [(f, v)]) (fieldSearch_body [(f, v)])).
    destruct (fieldSearch_loop_throw [(f, v)] (keys [(f, v)]) g
                (if b is Some b' then spatial_hits b' g ∪ ∅ else ∅) []) as [F' ->];
      last done.
    intros [[r Hr'] _]%Forall_cons. cbn [fst] in Hr'.
    rewrite query_get_single in Hr'. congruence.
Qed.

(** ** Checking the contract of [insert] by computation *)

Lemma plain_keys e (l : list string) :
  forallb (λ f, bool_decide (to_key (attr e f) ∉ Object_prototype)) l = true →
  ∀ f, f ∈ l → to_key (attr e f) ∉ Object_prototype.
Proof.
  intros H f Hf. rewrite forallb_forall in H.
  apply (bool_decide_unpack _), Is_true_true, H. by apply list_elem_of_In.
Qed.

Lemma respects_insert g e :
  byId g !! id e = None →
  byId_is_array g && bool_decide (id e = "length") = false →
  forallb (λ f, bool_decide (to_key (attr e f) ∉ Object_prototype)) (fieldsToIndex g)
  = true →
  respects g (Insert e).
Proof.
  intros Hnone Href Hkeys. split; first done. split; last by apply plain_keys.
  intros Hr. rewrite refused_test in Href. by rewrite bool_decide_eq_true_2 in Href.
Qed.

End Properties.

(** * The engine of test/test.js *)

Module Examples.
Import ListIndex.

(** ** The assertions of test/test.js *)

Example test_single_field :
  appended (search None (Some [("type", VStr "animal")]) [] db4)
  ≡ₚ [Entity dog; Entity cat] ∧
  appended (search None (Some [("type", VStr "plant")]) [] db4)
  ≡ₚ [Entity tree; Entity flower] ∧
  appended (search None (Some [("type", VStr "fake")]) [] db4) = [] ∧
  appended (search None (Some [("type", VStr "animal")]) [] (after (Remove dog) db4))
  = [Entity cat].
Proof.
  assert (appended (search None (Some [("type", VStr "animal")]) [] db4)
          = [Entity cat; Entity dog]) as -> by (vm_compute; reflexivity).
  assert (appended (search None (Some [("type", VStr "plant")]) [] db4)
          = [Entity flower; Entity tree]) as -> by (vm_compute; reflexivity).
  split; [apply perm_swap | split; [apply perm_swap | split; vm_compute; reflexivity]].
Qed.

Example test_multiple_fields :
  appended (search None (Some animal_black) [] db4) = [Entity dog] ∧
  appended (search None (Some [("type", VStr "plant"); ("color", VStr "black")]) [] db4)
  = [] ∧
  appended (search None (Some animal_black) [] (after (Remove dog) db4)) = [].
Proof. split; [|split]; vm_compute; reflexivity. Qed.

Example test_bounds :
  appended (search (Some upper_left) None [] db4) = [Entity dog] ∧
  appended (search (Some upper_left) None [] (after (Move moved_dog) db4)) = [] ∧
  appended (search (Some upper_left) None [] (after (Remove dog) db4)) = [].
Proof. split; [|split]; vm_compute; reflexivity. Qed.

Example test_bounds_and_fields :
  appended (search (Some upper_left) (Some [("type", VStr "animal")]) [] db4)
  = [Entity dog] ∧
  appended (search (Some upper_left) (Some animal_black) [] db4) = [Entity dog] ∧
  appended (search (Some upper_left)
              (Some [("type", VStr "animal"); ("color", VStr "white")]) [] db4) = [].
Proof. split; [|split]; vm_compute; reflexivity. Qed.

(** ** Names of inherited properties, and an identity store that is an array *)

(** A criterion on the field [toString], which is not configured: the lookup
    finds the method of that name and the search ends normally, with nothing
    found. *)
Example test_inherited_field :
  (search None (Some [("toString", VStr "animal")]) [] db4).1 = Normal [].
Proof. vm_compute. reflexivity. Qed.

(** A criterion for the value [constructor] on a configured field: the
    lookup finds [Object], which is no set, and the search throws. *)
Example test_inherited_value :
  (search None (Some [("type", VStr "constructor")]) [] db4).1 = Throw TypeError.
Proof. vm_compute. reflexivity. Qed.

(** An entity of type [constructor]: [insert] throws at the first field, once
    the entity is stored, and does not file it under its color. *)
Example test_insert_inherited_value :
  (insert builder db4).1 = Throw TypeError ∧
  byId (insert builder db4).2 !! "builder" = Some builder ∧
  slice (insert builder db4).2 "color" "black" = {["dog"]}.
Proof. split; [|split]; vm_compute; reflexivity. Qed.

(** After [nuke] the identity store is an array, which takes no entity for
    [length]. *)
Example test_insert_length :
  (insert long db4).1 = Normal tt ∧
  (insert long (after Nuke db4)).1 = Throw RangeError ∧
  (all (insert long (after Nuke db4)).2).1 = Normal [] ∧
  (remove long (after Nuke db4)).1 = Throw TypeError.
Proof. split; [|split; [|split]]; vm_compute; reflexivity. Qed.

(** ** The properties at these entities *)

Lemma db4_reachable : reachable db4.
Proof. unfold db4, db0. apply reachable_run, reachable_constructor. Qed.

Lemma db4_well_used : well_used db4.
Proof.
  unfold db4, db0, run. cbn [foldl].
  repeat (apply well_used_call; [|apply respects_insert; vm_compute; reflexivity]).
  apply well_used_new.
Qed.



(** C3 fails: the dog is within the bounds, and the search with these bounds
    and the query [{}] appends nothing. *)
Example search_bounds_empty_query_counterexample :
  appended (search (Some upper_left) None [] db4) = [Entity dog] ∧
  appended (search (Some upper_left) (Some []) [] db4) = [].
Proof. split; vm_compute; reflexivity. Qed.

(** C4 fails: the attribute is the number 5, the query asks for the string
    "5", and the entity is found. *)
Example search_single_field_counterexample :
  attr five "type" = VNum 5 I ∧ VNum 5 I ≠ VStr "5" ∧
  appended (search None (Some [("type", VStr "5")]) [] db_five) = [Entity five].
Proof. split; [|split]; [vm_compute; reflexivity | discriminate | vm_compute; reflexivity]. Qed.

Example search_single_field_witness :
  Entity five ∈ appended (search None (Some [("type", VStr "5")]) [] db_five) ↔
  ∃ e, Entity five = Entity e ∧ byId db_five !! id e = Some e ∧
       to_key (attr e "type") = to_key (VStr "5").
Proof.
  apply (search_single_field (SI := list_index) (RT := runtime)
           db_five "type" (VStr "5") [] (Entity five)).
  - unfold db_five. apply well_used_call.
    + apply well_used_new.
    + apply respects_insert; vm_compute; reflexivity.
  - vm_compute. apply list_elem_of_here.
  - apply (bool_decide_unpack _). vm_compute. exact I.
Defined.

(** C5 fails: the dog is stored, and inserting it once more ends normally. *)
Example insert_duplicate_counterexample :
  byId (run [Insert dog] db0) !! id dog = Some dog ∧
  (insert dog (run [Insert dog] db0)).1 = Normal tt.
Proof. split; vm_compute; reflexivity. Qed.

Example insert_replaces_witness :
  byId (insert zombie_dog (run [Insert dog] db0)).2
  = <[id zombie_dog := zombie_dog]> (byId (run [Insert dog] db0)) ∧
  ((insert zombie_dog (run [Insert dog] db0)).1 = Normal tt ↔
   ∀ f, f ∈ fieldsToIndex (run [Insert dog] db0) →
     to_key (attr zombie_dog f) ∉ Object_prototype) ∧
  ((insert zombie_dog (run [Insert dog] db0)).1 = Normal tt ∨
   (insert zombie_dog (run [Insert dog] db0)).1 = Throw TypeError).
Proof.
  apply (insert_replaces (SI := list_index) (RT := runtime)
           (run [Insert dog] db0) zombie_dog).
  - unfold db0. apply reachable_run, reachable_constructor.
  - vm_compute. eexists. reflexivity.
Defined.

(** C6 fails: nothing is stored under the id of the ghost, and both calls end
    normally. *)
Example remove_move_absent_counterexample :
  byId db4 !! id ghost = None ∧
  (remove ghost db4).1 = Normal tt ∧ (move ghost db4).1 = Normal tt.
Proof. split; [|split]; vm_compute; reflexivity. Qed.

Example remove_move_absent_witness :
  ((move ghost db4).1 = Normal tt ∧ byId (move ghost db4).2 = byId db4 ∧
   fieldIndexes (move ghost db4).2 = fieldIndexes db4 ∧
   spatialIndex (move ghost db4).2
   = rbush_insert (id ghost, getSpatialHandle ghost)
       (rbush_remove (id ghost) (spatialIndex db4))) ∧
  byId (remove ghost db4).2 = byId db4 ∧
  ((remove ghost db4).1 = Normal tt ↔
   ¬ refused db4 ghost ∧
   ∀ f, f ∈ fieldsToIndex db4 →
     is_Some (fieldIndexes db4 !! f ≫= (.!! (to_key (attr ghost f))))) ∧
  ((remove ghost db4).1 = Normal tt ∨ (remove ghost db4).1 = Throw TypeError).
Proof.
  apply (remove_move_absent (SI := list_index) (RT := runtime) db4 ghost).
  - unfold db4, db0. apply reachable_run, reachable_constructor.
  - vm_compute. reflexivity.
Defined.

(** C7 fails: [toString] is not a configured field, and the search for it
    ends normally. *)
Example search_unknown_field_counterexample :
  "toString" ∈ keys [("toString", VStr "animal")] ∧
  ("toString" ∉ fieldsToIndex db4) ∧
  (search None (Some [("toString", VStr "animal")]) [] db4).1 = Normal [].
Proof.
  split; [|split].
  - apply list_elem_of_here.
  - apply (bool_decide_unpack _). vm_compute. exact I.
  - vm_compute. reflexivity.
Qed.

Example search_unknown_field_witness :
  (search None (Some [("type", VStr "animal")]) [] (constructor (Fields [] I))).1
  = Throw TypeError.
Proof.
  apply (search_unknown_field (SI := list_index) (RT := runtime)
           (constructor (Fields [] I)) None [("type", VStr "animal")] [] "type").
  - apply reachable_constructor.
  - vm_compute. apply list_elem_of_here.
  - vm_compute. apply not_elem_of_nil.
  - apply (bool_decide_unpack _). vm_compute. exact I.
Defined.

(** C8 fails: the dog is removed after its type was changed; the call throws,
    and the dog is gone from the identity store all the same. *)
Example remove_not_atomic_counterexample :
  (remove zombie_dog db4).1 = Throw TypeError ∧
  byId db4 !! "dog" = Some dog ∧
  byId (remove zombie_dog db4).2 !! "dog" = None.
Proof. split; [|split]; vm_compute; reflexivity. Qed.

Example throwing_call_effect_witness :
  spatialIndex (after (Insert builder) db4) = spatialIndex db4 ∧
  fieldsToIndex (after (Insert builder) db4) = fieldsToIndex db4 ∧
  byId_is_array (after (Insert builder) db4) = byId_is_array db4 ∧
  (((perform (Insert builder) db4).1 = Throw RangeError ∧ refused db4 builder ∧
    byId (after (Insert builder) db4) = byId db4 ∧
    fieldIndexes (after (Insert builder) db4) = fieldIndexes db4) ∨
   ((perform (Insert builder) db4).1 = Throw TypeError ∧
    byId (after (Insert builder) db4) = <[id builder := builder]> (byId db4) ∧
    ∃ (l1 : list string) f (l2 : list string),
      fieldsToIndex db4 = (l1 ++ f :: l2)%list ∧
      to_key (attr builder f) ∈ Object_prototype ∧
      Forall (λ f', to_key (attr builder f') ∉ Object_prototype) l1 ∧
      ∀ f' (k' i : string),
        i ∈ slice (after (Insert builder) db4) f' k' ↔
        i ∈ slice db4 f' k' ∨
        (i = id builder ∧ f' ∈ l1 ∧ k' = to_key (attr builder f')))).
Proof.
  apply (throwing_call_effect (SI := list_index) (RT := runtime) db4 (Insert builder)).
  - unfold db4, db0. apply reachable_run, reachable_constructor.
  - vm_compute. exact I.
Defined.

Example move_keeps_field_matching_witness :
  (move moved_dog db4).1 = Normal tt ∧
  byId (move moved_dog db4).2 = byId db4 ∧
  fieldIndexes (move moved_dog db4).2 = fieldIndexes db4 ∧
  ∀ q (out out' : buffer),
    appended (search None (Some q) out' (move moved_dog db4).2)
    = appended (search None (Some q) out db4).
Proof.
  apply (move_keeps_field_matching (SI := list_index) (RT := runtime) db4 moved_dog).
  unfold db4, db0. apply reachable_run, reachable_constructor.
Defined.

End Examples.

(** * The further properties on the engine of test/test.js *)

Module MoreExamples.
Import ListIndex.

Example all_lists_stored_witness :
  ∃ l, all db4 = (Normal l, db4) ∧
       (∀ e, e ∈ l ↔ byId db4 !! id e = Some e) ∧
       NoDup (id <$> l) ∧ length l = size (byId db4).
Proof.
  apply (all_lists_stored (SI := list_index) (RT := runtime) db4).
  apply Examples.db4_reachable.
Defined.



Example inserted_is_found_witness :
  Entity dog ∈ appended (search None (Some animal_black) [] (insert dog db0).2).
Proof.
  apply (inserted_is_found (SI := list_index) (RT := runtime) db0 dog animal_black []).
  - apply reachable_constructor.
  - vm_compute. reflexivity.
  - discriminate.
  - intros f Hf. change (keys animal_black) with ["type"; "color"] in Hf.
    rewrite !elem_of_cons, elem_of_nil in Hf.
    destruct Hf as [->|[->|[]]]; split; vm_compute;
      first [reflexivity | apply list_elem_of_here
            | apply list_elem_of_further, list_elem_of_here].
Defined.

Example insert_only_adds_witness :
  ("dog" ∈ slice db4 "type" "animal" →
   "dog" ∈ slice (insert zombie_dog db4).2 "type" "animal") ∧
  ("dog" ≠ id zombie_dog →
     ("dog" ∈ slice (insert zombie_dog db4).2 "type" "animal" ↔
      "dog" ∈ slice db4 "type" "animal") ∧
     byId (insert zombie_dog db4).2 !! "dog" = byId db4 !! "dog") ∧
  (id zombie_dog ∈ slice (insert zombie_dog db4).2 "type" "animal" →
   id zombie_dog ∈ slice db4 "type" "animal" ∨
   ("type" ∈ fieldsToIndex db4 ∧ "animal" = to_key (attr zombie_dog "type"))) ∧
  ((insert zombie_dog db4).1 = Normal tt → "type" ∈ fieldsToIndex db4 →
   id zombie_dog ∈ slice (insert zombie_dog db4).2 "type"
                    (to_key (attr zombie_dog "type"))).
Proof.
  apply (insert_only_adds (SI := list_index) (RT := runtime)
           db4 zombie_dog "type" "animal" "dog").
  apply Examples.db4_reachable.
Defined.

Example remove_only_removes_witness :
  ("cat" ∈ slice (remove zombie_dog db4).2 "type" "animal" →
   "cat" ∈ slice db4 "type" "animal") ∧
  ("cat" ≠ id zombie_dog →
     ("cat" ∈ slice (remove zombie_dog db4).2 "type" "animal" ↔
      "cat" ∈ slice db4 "type" "animal") ∧
     byId (remove zombie_dog db4).2 !! "cat" = byId db4 !! "cat") ∧
  (is_Some (fieldIndexes (remove zombie_dog db4).2 !! "type" ≫= (.!! "animal")) ↔
   is_Some (fieldIndexes db4 !! "type" ≫= (.!! "animal"))) ∧
  ((remove zombie_dog db4).1 = Normal tt → "type" ∈ fieldsToIndex db4 →
   id zombie_dog ∉ slice (remove zombie_dog db4).2 "type"
                    (to_key (attr zombie_dog "type"))).
Proof.
  apply (remove_only_removes (SI := list_index) (RT := runtime)
           db4 zombie_dog "type" "animal" "cat").
  apply Examples.db4_reachable.
Defined.

Example one_key_per_field_witness :
  (∃ e, byId db4 !! "dog" = Some e ∧ id e = "dog" ∧
        to_key (attr e "type") = "animal") ∧
  ("dog" ∈ slice db4 "type" "plant" → "plant" = "animal").
Proof.
  apply (one_key_per_field (SI := list_index) (RT := runtime)
           db4 "type" "animal" "plant" "dog").
  - apply Examples.db4_well_used.
  - vm_compute. apply list_elem_of_here.
  - vm_compute. reflexivity.
Defined.

Example only_search_throws_witness :
  (perform (Remove dog) db4).1 = Normal tt ∨
  ∃ (b : option bbox) q (out : buffer) f,
    Remove dog = Search b (Some q) out ∧ f ∈ keys q ∧
    (f ∉ fieldsToIndex db4 ∨ to_key (query_get q f) ∈ Object_prototype).
Proof.
  apply (only_search_throws (SI := list_index) (RT := runtime) db4 (Remove dog)).
  - apply Examples.db4_well_used.
  - exists dog. split; vm_compute; reflexivity.
Defined.

Example query_results_are_entities_witness :
  (Undefined ∉ appended (search None (Some animal_black) [] db4)) ∧
  ∀ o : slot, o ∈ appended (search None (Some animal_black) [] db4) →
    ∃ e, o = Entity e ∧ byId db4 !! id e = Some e.
Proof.
  apply (query_results_are_entities (SI := list_index) (RT := runtime)
           db4 animal_black []).
  apply Examples.db4_well_used.
Defined.


Example single_part_by_reference_witness :
  (resultReference (pool (search (Some upper_left) None [] db4).2) = Some PoolSpatial ∧
   ids (pool (search (Some upper_left) None [] db4).2) = ∅ ∧
   spatial (pool (search (Some upper_left) None [] db4).2)
   = spatial_hits upper_left db4) ∧
  (resultReference (pool (search None (Some [("type", VStr "constructor")]) [] db4).2)
   = Some (if decide (is_Some (fieldIndexes db4 !! "type"
                                 ≫= (.!! (to_key (VStr "constructor")))))
           then IndexSlice "type" (to_key (VStr "constructor"))
           else if decide (to_key (VStr "constructor") ∈ Object_prototype) then NotASet
           else PoolEmptySet) ∧
   ids (pool (search None (Some [("type", VStr "constructor")]) [] db4).2) = ∅).
Proof.
  apply (single_part_by_reference (SI := list_index) (RT := runtime)
           db4 upper_left "type" (VStr "constructor") []).
  vm_compute. eexists. reflexivity.
Defined.

Example insert_remove_round_trip_witness :
  (insert ghost db4).1 = Normal tt ∧
  (remove ghost (insert ghost db4).2).1 = Normal tt ∧
  byId (remove ghost (insert ghost db4).2).2 = byId db4 ∧
  ∀ f (k : string), slice (remove ghost (insert ghost db4).2).2 f k = slice db4 f k.
Proof.
  apply (insert_remove_round_trip (SI := list_index) (RT := runtime) db4 ghost).
  - apply Examples.db4_well_used.
  - apply respects_insert; vm_compute; reflexivity.
Defined.

Example remove_insert_reindexes_witness :
  (remove dog db4).1 = Normal tt ∧
  (insert zombie_dog (remove dog db4).2).1 = Normal tt ∧
  byId (insert zombie_dog (remove dog db4).2).2 !! id zombie_dog = Some zombie_dog ∧
  (id zombie_dog ∈ slice (insert zombie_dog (remove dog db4).2).2 "type" "animal" ↔
   "animal" = to_key (attr zombie_dog "type")).
Proof.
  apply (remove_insert_reindexes (SI := list_index) (RT := runtime)
           db4 dog zombie_dog "type" "animal").
  - apply Examples.db4_well_used.
  - vm_compute. reflexivity.
  - reflexivity.
  - apply plain_keys. vm_compute. reflexivity.
  - vm_compute. apply list_elem_of_here.
Defined.

Example inserts_commute_witness :
  byId (insert cat (insert dog db0).2).2 = byId (insert dog (insert cat db0).2).2 ∧
  slice (insert cat (insert dog db0).2).2 "type" "animal"
  = slice (insert dog (insert cat db0).2).2 "type" "animal".
Proof.
  apply (inserts_commute (SI := list_index) (RT := runtime) db0 dog cat "type" "animal").
  - apply reachable_constructor.
  - discriminate.
Defined.

Example search_bounds_slots_witness :
  (search (Some upper_left) None [] db4).1
  = Normal (byId_read db4 <$> elements (spatial_hits upper_left db4)) ∧
  (∀ o, o ∈ appended (search (Some upper_left) None [] db4) ↔
        ∃ x, x ∈ rbush_search upper_left (spatialIndex db4) ∧ byId_read db4 x.1 = o) ∧
  length (appended (search (Some upper_left) None [] db4))
  = size (spatial_hits upper_left db4).
Proof.
  apply (search_bounds_slots (SI := list_index) (RT := runtime) db4 upper_left []).
  apply Examples.db4_reachable.
Defined.

Example search_field_slots_witness :
  (to_key (VStr "animal") ∉ Object_prototype →
   (search None (Some [("type", VStr "animal")]) [] db4).1
   = Normal (byId_read db4 <$> elements (slice db4 "type" (to_key (VStr "animal")))) ∧
   length (appended (search None (Some [("type", VStr "animal")]) [] db4))
   = size (slice db4 "type" (to_key (VStr "animal")))) ∧
  (to_key (VStr "animal") ∈ Object_prototype →
   (search None (Some [("type", VStr "animal")]) [] db4).1 = Throw TypeError).
Proof.
  apply (search_field_slots (SI := list_index) (RT := runtime)
           db4 "type" (VStr "animal") []).
  - apply Examples.db4_reachable.
  - vm_compute. apply list_elem_of_here.
Defined.

Example duplicate_insert_is_found_by_old_key_witness :
  Entity zombie_dog
  ∈ appended (search None (Some [("type", VStr "animal")]) []
                (insert zombie_dog db4).2).
Proof.
  apply (duplicate_insert_is_found_by_old_key (SI := list_index) (RT := runtime)
           db4 zombie_dog "type" (VStr "animal") []).
  - apply Examples.db4_reachable.
  - vm_compute. apply list_elem_of_here.
  - vm_compute. reflexivity.
Defined.

Example array_refuses_length_witness :
  ((insert long (after Nuke db4)).1 = Throw RangeError ↔
   byId_is_array (after Nuke db4) = true ∧ id long = "length") ∧
  (byId_is_array (after Nuke db4) = true →
   byId_is_array (run [Insert dog] (after Nuke db4)) = true ∧
   byId (after Nuke db4) !! "length" = None ∧
   (id long = "length" →
    insert long (after Nuke db4) = (Throw RangeError, after Nuke db4) ∧
    remove long (after Nuke db4) = (Throw TypeError, after Nuke db4))).
Proof.
  apply (array_refuses_length (SI := list_index) (RT := runtime)
           (after Nuke db4) long [Insert dog]).
  apply reachable_after, Examples.db4_reachable.
Defined.

Example search_inherited_field_witness :
  match builtin_property "toString" (to_key (VStr "animal")) with
  | Raises => (search None (Some [("toString", VStr "animal")]) [] db4).1 = Throw TypeError
  | Falsy => (search None (Some [("toString", VStr "animal")]) [] db4).1 = Normal []
  | Truthy =>
      appended (search None (Some [("toString", VStr "animal")]) [] db4) = [] ∧
      (search None (Some [("toString", VStr "animal")]) [] db4).1 = Throw TypeError
  end.
Proof.
  apply (search_inherited_field (SI := list_index) (RT := runtime)
           db4 None "toString" (VStr "animal") []).
  - apply Examples.db4_reachable.
  - apply (bool_decide_unpack _). vm_compute. exact I.
  - apply (bool_decide_unpack _). vm_compute. exact I.
Defined.

End MoreExamples.
